(** * region-search-tiledb: the indexing and query core of [tiles.py]

    A shallow embedding of [tiles.py]: the bounded overlap filter, the
    coordinate binner, the chromosome normaliser, the accession registry and
    the ingestion and query entry points, followed by the properties of the
    specification that concern them.

    Python integers are [Z]; counters that start at 0 and are only
    incremented are [nat]; dictionaries are [gmap]; generators are the lists
    of the values they yield; a call that can raise returns a [res]. *)

From stdpp Require Import gmap strings list fin_maps.
From Stdlib Require Import ZArith Lia Ascii.

Local Open Scope Z_scope.

(** ** Exceptions and the error monad *)

Inductive exn : Type :=
  | ValueError          (* int() on a non-number, range() with step 0, unpacking *)
  | IndexError          (* a sequence index out of range *)
  | KeyError            (* a missing dictionary key *)
  | FileNotFoundError   (* open() of a missing file *)
  | ConnectionError     (* requests.get of an unreachable url *)
  | TileDBError         (* the store refuses to open, read or write *)
  | UninitializedRead   (* a cell of np.empty read before it was written *)
  | FuelExhausted.      (* model only: the while loop was cut short *)

Inductive res (A : Type) : Type :=
  | Ok (a : A)
  | Raise (e : exn).
Arguments Ok {A} a.
Arguments Raise {A} e.

Global Instance res_ret : MRet res := λ A a, Ok a.
Global Instance res_bind : MBind res := λ A B f m,
  match m with
  | Ok a => f a
  | Raise e => Raise e
  end.

Global Instance res_fmap : FMap res := λ A B f m,
  match m with
  | Ok a => Ok (f a)
  | Raise e => Raise e
  end.

Global Instance exn_eq_dec : EqDecision exn.
Proof. solve_decision. Defined.

(** ** Python built-ins used by the module *)

Module Py.

(** len(range(start, stop, step)), as CPython computes it. *)
Definition range_length (start stop step : Z) : Z :=
  if 0 <? step then
    if start <? stop then (stop - start - 1) / step + 1 else 0
  else
    if stop <? start then (start - stop - 1) / (- step) + 1 else 0.

(** range(start, stop, step): raises ValueError when step is 0. *)
Definition range (start stop step : Z) : res (list Z) :=
  if step =? 0 then Raise ValueError
  else Ok ((λ i, start + i * step) <$> seqZ 0 (range_length start stop step)).

(** str.replace(old, new) for a non-empty [old]: occurrences are found
    left to right and do not overlap. [skip] counts the characters of a
    match that are still to be passed over. *)
Fixpoint replace_go (old new : string) (skip : nat) (s : string) : string :=
  match s with
  | EmptyString => EmptyString
  | String c s' =>
      match skip with
      | S k => replace_go old new k s'
      | O =>
          if String.prefix old s
          then new +:+ replace_go old new (String.length old - 1) s'
          else String c (replace_go old new 0 s')
      end
  end.

(** With an empty [old], Python puts [new] before every character and at
    the end. *)
Fixpoint intersperse (new s : string) : string :=
  match s with
  | EmptyString => new
  | String c s' => new +:+ String c (intersperse new s')
  end.

Definition replace (s old new : string) : string :=
  match old with
  | EmptyString => intersperse new s
  | _ => replace_go old new 0 s
  end.

(** str.split(sep): [cur] is the piece being read, reversed. *)
Fixpoint split_go (sep : string) (skip : nat) (cur s : string) : list string :=
  match s with
  | EmptyString => [String.rev cur]
  | String c s' =>
      match skip with
      | S k => split_go sep k cur s'
      | O =>
          if String.prefix sep s
          then String.rev cur :: split_go sep (String.length sep - 1) EmptyString s'
          else split_go sep 0 (String c cur) s'
      end
  end.

Definition split (s sep : string) : res (list string) :=
  match sep with
  | EmptyString => Raise ValueError
  | _ => Ok (split_go sep 0 EmptyString s)
  end.

(** l[-1] *)
Definition getitem_last {A} (l : list A) : res A :=
  match last l with
  | Some x => Ok x
  | None => Raise IndexError
  end.

(** int(s) for a string of bytes: surrounding white space is dropped, one
    sign is allowed, then decimal digits, single underscores allowed
    between digits. Digits outside ASCII, which Python also accepts, are
    not digits here. *)
Definition is_space (c : Ascii.ascii) : bool :=
  let n := Ascii.nat_of_ascii c in
  ((9 <=? n) && (n <=? 13) || (28 <=? n) && (n <=? 32))%nat.

Definition digit_of (c : Ascii.ascii) : option Z :=
  let n := Ascii.nat_of_ascii c in
  if ((48 <=? n) && (n <=? 57))%nat then Some (Z.of_nat n - 48) else None.

Fixpoint lstrip (s : string) : string :=
  match s with
  | EmptyString => EmptyString
  | String c s' => if is_space c then lstrip s' else s
  end.

Definition strip (s : string) : string :=
  String.rev (lstrip (String.rev (lstrip s))).

Fixpoint digits_go (s : string) (acc : Z) (after_digit : bool) : res Z :=
  match s with
  | EmptyString => if after_digit then Ok acc else Raise ValueError
  | String c s' =>
      match digit_of c with
      | Some d => digits_go s' (10 * acc + d) true
      | None =>
          if Ascii.eqb c "_"%char && after_digit
          then digits_go s' acc false
          else Raise ValueError
      end
  end.

Definition int_of_str (s : string) : res Z :=
  match strip s with
  | String "+"%char s' => digits_go s' 0 false
  | String "-"%char s' => Z.opp <$> digits_go s' 0 false
  | s' => digits_go s' 0 false
  end.

End Py.

(** ** Module constants *)

Definition GAP : Z := 1000.

Definition CHROMOSOME_TO_NUMBER : gmap string Z :=
  <["X" := 23]> (<["Y" := 24]> (<["M" := 25]> ∅)).

(** ** Chromosome labels *)

(** [parse_chromosome] returns the table's integer or, failing that, the
    string it looked up: a value that is an int or a str. *)
Inductive int_or_str : Type :=
  | PyInt (n : Z)
  | PyStr (s : string).

Definition parse_chromosome (chromosome : string) : int_or_str :=
  let chromosome := Py.replace chromosome "chr" "" in
  match CHROMOSOME_TO_NUMBER !! chromosome with
  | Some n => PyInt n
  | None => PyStr chromosome
  end.

(** int(x) for such a value. *)
Definition int (x : int_or_str) : res Z :=
  match x with
  | PyInt n => Ok n
  | PyStr s => Py.int_of_str s
  end.

(** One record of the interval source. *)
Record feature : Type :=
  Feature { feature_chrom : string; feature_start : Z; feature_end : Z }.

(** (chromosome, start, end) *)
Definition region : Type := Z * Z * Z.

(** [get_regions_from_bed]: a record whose label raises ValueError in int()
    is skipped; any other exception leaves the loop. *)
Fixpoint get_regions_from_bed (bed : list feature) : res (list region) :=
  match bed with
  | [] => Ok []
  | feature :: bed' =>
      match int (parse_chromosome (feature_chrom feature)) with
      | Raise ValueError => get_regions_from_bed bed'
      | Raise e => Raise e
      | Ok parsed_chromosome =>
          rest ← get_regions_from_bed bed';
          Ok ((parsed_chromosome, feature_start feature, feature_end feature) :: rest)
      end
  end.

(** ** The accession registry *)

(** The three variables the closures of
    [get_find_index_and_find_file_maps] share. *)
Record registry : Type := Registry {
  current_index : Z;
  accession_to_index : gmap string Z;
  index_to_accession : gmap Z string
}.

(** The state a fresh call sets up; [FILE_INDEX_START] is read from the
    environment when the module is loaded. *)
Definition get_find_index_and_find_file_maps (FILE_INDEX_START : Z) : registry :=
  Registry FILE_INDEX_START ∅ ∅.

Definition find_index (accession : string) (reg : registry) : res Z * registry :=
  let reg' :=
    match accession_to_index reg !! accession with
    | None =>
        Registry (current_index reg + 1)
                 (<[accession := current_index reg]> (accession_to_index reg))
                 (<[current_index reg := accession]> (index_to_accession reg))
    | Some _ => reg
    end in
  (match accession_to_index reg' !! accession with
   | Some index => Ok index
   | None => Raise KeyError
   end, reg').

(** index_to_accession.get(index): None for an unknown index. *)
Definition find_file (index : Z) (reg : registry) : option string :=
  index_to_accession reg !! index.

Definition get_maps (reg : registry) : gmap string Z * gmap Z string :=
  (accession_to_index reg, index_to_accession reg).

Definition set_maps (a_to_i : gmap string Z) (i_to_a : gmap Z string)
    (reg : registry) : registry :=
  Registry (current_index reg) a_to_i i_to_a.

(** A persisted document. json.dump and json.load are library code: a
    document is kept as the mapping it encodes. The reverse map is written
    with its integer keys as strings and read back through int(k)
    (key_to_int=True), the identity on what [save_maps] writes. *)
Inductive json_doc : Type :=
  | JsonStrToInt (m : gmap string Z)
  | JsonIntToStr (m : gmap Z string).

Definition save_map_to_json_file (map_ : json_doc) (name : string)
    (fs : gmap string json_doc) : gmap string json_doc :=
  <[name := map_]> fs.

(** [load_map_from_json_file], at each of its two uses. A missing file
    raises; a document of the other shape, which [save_maps] never writes
    under that name, is refused with ValueError. *)
Definition load_forward_map (name : string) (fs : gmap string json_doc)
  : res (gmap string Z) :=
  match fs !! name with
  | None => Raise FileNotFoundError
  | Some (JsonStrToInt m) => Ok m
  | Some (JsonIntToStr _) => Raise ValueError
  end.

Definition load_reverse_map (name : string) (fs : gmap string json_doc)
  : res (gmap Z string) :=
  match fs !! name with
  | None => Raise FileNotFoundError
  | Some (JsonIntToStr m) => Ok m
  | Some (JsonStrToInt _) => Raise ValueError
  end.

Definition save_maps (database : string) (reg : registry)
    (fs : gmap string json_doc) : gmap string json_doc :=
  save_map_to_json_file (JsonIntToStr (index_to_accession reg))
    (database +:+ "_i_to_a.json")
    (save_map_to_json_file (JsonStrToInt (accession_to_index reg))
       (database +:+ "_a_to_i.json") fs).

(** [load_maps] assigns the forward map before it reads the reverse one, so
    a failure of the second read leaves the first assignment in place. *)
Definition load_maps (database : string) (fs : gmap string json_doc)
    (reg : registry) : res () * registry :=
  match load_forward_map (database +:+ "_a_to_i.json") fs with
  | Raise e => (Raise e, reg)
  | Ok a_to_i =>
      let reg1 := Registry (current_index reg) a_to_i (index_to_accession reg) in
      match load_reverse_map (database +:+ "_i_to_a.json") fs with
      | Raise e => (Raise e, reg1)
      | Ok i_to_a => (Ok (), Registry (current_index reg1) a_to_i i_to_a)
      end
  end.

(** ** The binner *)

Definition get_positions_for_region (start end_ gap : Z) : res (list Z) :=
  Py.range start end_ gap.

Definition get_fill_value_for_region (filename start end_ : Z) : Z * Z * Z :=
  (filename, start, end_).

(** (chromosome, position, payload) *)
Definition datum : Type := Z * Z * (Z * Z * Z).

Definition get_data_for_region (file_index : Z) (region : region) (gap : Z)
  : res (list datum) :=
  let '(chrom, start, end_) := region in
  let fill_value := get_fill_value_for_region file_index start end_ in
  positions ← get_positions_for_region start end_ gap;
  Ok ((λ position, (chrom, position, fill_value)) <$> (positions : list Z)).

Definition generate_positions_from_regions (file_index : Z) (file_ : list feature)
    (gap : Z) : res (list datum) :=
  regions ← get_regions_from_bed file_;
  data ← mapM (λ region, get_data_for_region file_index region gap)
              (regions : list region);
  Ok (concat (data : list (list datum))).

(** ** The payload record and the overlap test *)

(** One element of the structured array the store returns for the attribute
    [region]: numpy names the three int32 fields f0, f1, f2; they hold the
    source index, the start and the end of the interval as ingested. *)
Record result : Type := Result { f0 : Z; f1 : Z; f2 : Z }.

Global Instance result_eq_dec : EqDecision result.
Proof. solve_decision. Defined.

(** [query_intersects_result]: (result['f2'] >= start) and (result['f1'] <= end). *)
Definition query_intersects_result (r : result) (start end_ : Z) : bool :=
  (f2 r >=? start) && (f1 r <=? end_).

(** ** The two-pass bounded filter *)

(** results[i] *)
Definition getitem {A} (a : list A) (i : nat) : res A :=
  match a !! i with
  | Some x => Ok x
  | None => Raise IndexError
  end.

(** a[i] = x, on an array whose cells may still be unwritten. *)
Definition setitem {A} (a : list (option A)) (i : nat) (x : A)
  : res (list (option A)) :=
  if decide (i < length a)%nat then Ok (<[i := Some x]> a) else Raise IndexError.

(** np.empty(n, dtype): n cells, none of them written yet. *)
Definition np_empty (n : nat) : list (option result) := replicate n None.

(** Reading the finished array back: every cell must have been written. *)
Definition read_cells {A} (a : list (option A)) : res (list A) :=
  mapM (λ c, match c with Some x => Ok x | None => Raise UninitializedRead end) a.

(** The first loop of [filter_results]:
<<
    while filtered_length < limit and length < results.size:
        if query_intersects_result(results[length], start, end):
            filtered_length += 1
        length += 1
>>
    The state is (length, filtered_length). Each turn increments [length],
    so [results.size] turns are always enough; [fuel] bounds the turns. *)
Fixpoint sizing_pass (fuel : nat) (results : list result) (start end_ limit : Z)
    (length_ filtered_length : nat) : res (nat * nat) :=
  if (Z.of_nat filtered_length <? limit) && (length_ <? length results)%nat then
    match fuel with
    | O => Raise FuelExhausted
    | S fuel' =>
        r ← getitem results length_;
        let filtered_length' :=
          if query_intersects_result r start end_
          then S filtered_length else filtered_length in
        sizing_pass fuel' results start end_ limit (S length_) filtered_length'
    end
  else Ok (length_, filtered_length).

(** The second loop of [filter_results], over the indices of range(length):
<<
    for i in range(length):
        if query_intersects_result(results[i], start, end):
            filtered_results[filtered_length] = results[i]
            filtered_length += 1
>> *)
Fixpoint materialization_pass (indices : list nat) (results : list result)
    (start end_ : Z) (filtered_results : list (option result))
    (filtered_length : nat) : res (list (option result)) :=
  match indices with
  | [] => Ok filtered_results
  | i :: indices' =>
      r ← getitem results i;
      if query_intersects_result r start end_ then
        filtered_results' ← setitem filtered_results filtered_length r;
        materialization_pass indices' results start end_
          filtered_results' (S filtered_length)
      else
        materialization_pass indices' results start end_
          filtered_results filtered_length
  end.

Definition filter_results (results : list result) (start end_ limit : Z)
  : res (list result) :=
  '(length_, filtered_length) ←
    sizing_pass (length results) results start end_ limit 0 0;
  let filtered_results := np_empty filtered_length in
  filtered_results' ←
    materialization_pass (seq 0 length_) results start end_ filtered_results 0;
  read_cells filtered_results'.

(** The single bounded pass the specification allows instead: candidates are
    visited in order and true matches are appended to a growable buffer
    until the buffer holds [limit] of them. *)
Fixpoint single_pass (candidates : list result) (qstart qend limit : Z)
    (buffer : list result) : list result :=
  match candidates with
  | [] => buffer
  | c :: rest =>
      if Z.of_nat (length buffer) <? limit then
        if query_intersects_result c qstart qend
        then single_pass rest qstart qend limit (buffer ++ [c])
        else single_pass rest qstart qend limit buffer
      else buffer
  end.

(** The candidates that truly overlap the window, in arrival order. *)
Definition true_matches (results : list result) (start end_ : Z) : list result :=
  filter (λ r, query_intersects_result r start end_ = true) results.

(** ** The coordinate store *)

(** One stored cell of the sparse array: the two dimensions and the
    attribute [region]. *)
Record cell : Type :=
  Cell { cell_chr : Z; cell_genomic_position : Z; cell_region : result }.

(** The domain [create_region_array] declares: chr in (1, 25),
    genomic_position in (0, 250000000). *)
Definition in_domain (chr genomic_position : Z) : bool :=
  (1 <=? chr) && (chr <=? 25)
  && (0 <=? genomic_position) && (genomic_position <=? 250000000).

Definition to_result (fill_value : Z * Z * Z) : result :=
  let '(file_index, start, end_) := fill_value in Result file_index start end_.

(** The coordinate store is TileDB, an external library; its two operations
    are modelled as the specification describes that opaque capability. A
    multi-point write [A[chroms, positions] = data] adds one cell per
    coordinate, duplicates allowed, and is refused as a whole when the three
    sequences differ in length or a coordinate lies outside the declared
    domain. The payload fields are kept as integers; their int32 width is
    not modelled. *)
Definition array_write (A : list cell) (chroms positions : list Z)
    (data : list (Z * Z * Z)) : res (list cell) :=
  if decide (length chroms = length positions ∧ length positions = length data) then
    if forallb (λ cp, in_domain cp.1 cp.2) (zip chroms positions) then
      Ok (A ++ zip_with (λ cp d, Cell cp.1 cp.2 (to_result d)) (zip chroms positions) data)
    else Raise TileDBError
  else Raise TileDBError.

(** The range read [A[chrom, lo:hi][ATTRIBUTE_NAME]] returns the payload of
    every cell of chromosome [chrom] whose position lies in the half-open
    slice lo <= position < hi, duplicates included. *)
Definition array_read (A : list cell) (chrom lo hi : Z) : list result :=
  cell_region <$>
    filter (λ c, cell_chr c = chrom
                 ∧ lo ≤ cell_genomic_position c ∧ cell_genomic_position c < hi) A.

(** pd.unique: the distinct values in order of first appearance. *)
Fixpoint pd_unique_go {A} `{EqDecision A} (seen l : list A) : list A :=
  match l with
  | [] => []
  | x :: l' =>
      if decide (x ∈ seen) then pd_unique_go seen l'
      else x :: pd_unique_go (x :: seen) l'
  end.

Definition pd_unique {A} `{EqDecision A} (l : list A) : list A := pd_unique_go [] l.

(** ** The process and its surroundings *)

(** What the entry points read and change: the module-level registry (the
    closures bound on the last line of the module), the JSON files, the
    arrays on disk by name, and the bed files that a url or a path leads
    to. *)
Record world : Type := World {
  the_registry : registry;
  json_files : gmap string json_doc;
  arrays : gmap string (list cell);
  remote_beds : gmap string (list feature);
  local_beds : gmap string (list feature)
}.

(** Statements that change the world and may raise. *)
Definition M (A : Type) : Type := world → res A * world.

Global Instance M_ret : MRet M := λ A a w, (Ok a, w).
Global Instance M_bind : MBind M := λ A B f m w,
  match m w with
  | (Ok a, w') => f a w'
  | (Raise e, w') => (Raise e, w')
  end.

Definition lift {A} (r : res A) : M A := λ w, (r, w).

Definition with_registry {A} (f : registry → res A * registry) : M A := λ w,
  let '(r, reg') := f (the_registry w) in
  (r, World reg' (json_files w) (arrays w) (remote_beds w) (local_beds w)).

Definition read_registry : M registry := λ w, (Ok (the_registry w), w).

(** [create_region_array]: a new, empty sparse array with the domain above;
    creating over an existing array is refused. *)
Definition create_region_array (array_name : string) : M () := λ w,
  match arrays w !! array_name with
  | Some _ => (Raise TileDBError, w)
  | None =>
      (Ok (), World (the_registry w) (json_files w) (<[array_name := []]> (arrays w))
                    (remote_beds w) (local_beds w))
  end.

(** tiledb.SparseArray(database, mode): the array must exist. *)
Definition open_array (database : string) : M (list cell) := λ w,
  match arrays w !! database with
  | Some A => (Ok A, w)
  | None => (Raise TileDBError, w)
  end.

Definition put_array (database : string) (A : list cell) : M () := λ w,
  (Ok (), World (the_registry w) (json_files w) (<[database := A]> (arrays w))
                (remote_beds w) (local_beds w)).

(** open_array[chroms, positions] = data, on the array opened as [database]. *)
Definition array_setitem (database : string) (chroms positions : list Z)
    (data : list (Z * Z * Z)) : M () :=
  A ← open_array database;
  A' ← lift (array_write A chroms positions data);
  put_array database A'.

(** requests.get, gzip.open and BedTool are library code: a url leads to the
    records of the file it serves, or the fetch fails. *)
Definition get_remote_bed_file (url : string) : M (list feature) := λ w,
  match remote_beds w !! url with
  | Some bed => (Ok bed, w)
  | None => (Raise ConnectionError, w)
  end.

Definition get_local_bed_file (filepath : string) : M (list feature) := λ w,
  match local_beds w !! filepath with
  | Some bed => (Ok bed, w)
  | None => (Raise FileNotFoundError, w)
  end.

(** ** Ingestion *)

(** chroms, positions, data = zip( *rows ): zip() of no row yields nothing,
    and unpacking nothing into three names raises ValueError. *)
Definition unzip3 (rows : list datum)
  : res (list Z * list Z * list (Z * Z * Z)) :=
  match rows with
  | [] => Raise ValueError
  | _ => Ok (rows.*1.*1, rows.*1.*2, rows.*2)
  end.

Definition write_data_for_file (open_array : string) (file_index : Z)
    (file_ : list feature) : M () :=
  rows ← lift (generate_positions_from_regions file_index file_ GAP);
  '(chroms, positions, data) ← lift (unzip3 rows);
  array_setitem open_array chroms positions data.

(** The body of the loop of [load], once per url. *)
Fixpoint load_loop (database : string) (urls : list string) : M () :=
  match urls with
  | [] => mret ()
  | url :: urls' =>
      file_ ← get_remote_bed_file url;
      parts ← lift (Py.split url "/");
      name ← lift (Py.getitem_last parts);
      let accession := Py.replace name ".bed.gz" "" in
      file_index ← with_registry (find_index accession);
      write_data_for_file database file_index file_;;
      load_loop database urls'
  end.

Definition load (database : string) (urls : list string) : M () :=
  open_array database;; load_loop database urls.

(** The body of the loop of [load_local]: [accession] is computed and
    printed, and [find_index] is given the file name itself. *)
Fixpoint load_local_loop (database : string) (files : list string) : M () :=
  match files with
  | [] => mret ()
  | filepath :: files' =>
      file_ ← get_local_bed_file filepath;
      parts ← lift (Py.split filepath "/");
      name ← lift (Py.getitem_last parts);
      let accession := Py.replace name ".bed.gz" "" in
      parts' ← lift (Py.split filepath "/");
      name' ← lift (Py.getitem_last parts');
      file_index ← with_registry (find_index name');
      write_data_for_file database file_index file_;;
      load_local_loop database files'
  end.

Definition load_local (database : string) (files : list string) : M () :=
  open_array database;; load_local_loop database files.

(** ** Queries *)

Definition recover_file_from_result (reg : registry) (r : result)
  : option string * Z * Z :=
  (find_file (f0 r) reg, f1 r, f2 r).

(** The widened range read both queries start with:
    pd.unique(A[chrom, max(0, (start - GAP)):(end + 1)][ATTRIBUTE_NAME]). *)
Definition read_candidates (A : list cell) (chrom start end_ : Z) : list result :=
  pd_unique (array_read A chrom (Z.max 0 (start - GAP)) (end_ + 1)).

Definition query_region (database : string) (chrom start end_ limit : Z)
  : M (list (option string * Z * Z)) :=
  A ← open_array database;
  let results := read_candidates A chrom start end_ in
  filtered ← lift (filter_results results start end_ limit);
  reg ← read_registry;
  mret (recover_file_from_result reg <$> (filtered : list result)).

(** Python's truth value of what [find_file] returns: None and the empty
    string are false. *)
Definition truthy (filename : option string) : bool :=
  match filename with
  | None => false
  | Some EmptyString => false
  | Some _ => true
  end.

Definition get_filtered_file_results (reg : registry) (results : list result)
    (start end_ limit : Z) : res (list string) :=
  filtered ← filter_results results start end_ limit;
  Ok (omap (λ r, let filename := (recover_file_from_result reg r).1.1 in
                 if truthy filename then filename else None)
           (filtered : list result)).

Definition query_file (database : string) (chrom start end_ limit : Z)
  : M (list string) :=
  A ← open_array database;
  let results := read_candidates A chrom start end_ in
  reg ← read_registry;
  names ← lift (get_filtered_file_results reg results start end_ limit);
  mret (pd_unique (names : list string)).

(** ** Runs of registry operations *)

(** The six closures a registry instance hands out, as requests. *)
Inductive registry_op : Type :=
  | FindIndex (accession : string)
  | FindFile (index : Z)
  | SaveMaps (database : string)
  | LoadMaps (database : string)
  | GetMaps
  | SetMaps (a_to_i : gmap string Z) (i_to_a : gmap Z string).

(** A registry instance together with the files it saves to and loads from. *)
Definition registry_state : Type := registry * gmap string json_doc.

(** The effect of one operation on the state; what the operation returns or
    raises is dropped. *)
Definition run_op (op : registry_op) (st : registry_state) : registry_state :=
  match op with
  | FindIndex accession => ((find_index accession st.1).2, st.2)
  | FindFile index => st
  | SaveMaps database => (st.1, save_maps database st.1 st.2)
  | LoadMaps database => ((load_maps database st.2 st.1).2, st.2)
  | GetMaps => st
  | SetMaps a_to_i i_to_a => (set_maps a_to_i i_to_a st.1, st.2)
  end.

Definition run_ops (ops : list registry_op) (st : registry_state) : registry_state :=
  foldl (λ st op, run_op op st) st ops.

(** The forward and the reverse map are exact inverses of each other. *)
Definition mutual_inverses (a_to_i : gmap string Z) (i_to_a : gmap Z string) : Prop :=
  map_Forall (λ a i, i_to_a !! i = Some a) a_to_i
  ∧ map_Forall (λ i a, a_to_i !! a = Some i) i_to_a.

(** Every index in use lies below the counter. *)
Definition indices_below (counter : Z) (i_to_a : gmap Z string) : Prop :=
  map_Forall (λ i _, i < counter) i_to_a.

Definition registry_consistent (reg : registry) : Prop :=
  mutual_inverses (accession_to_index reg) (index_to_accession reg)
  ∧ indices_below (current_index reg) (index_to_accession reg).

(** [load_maps] and [set_maps] replace both maps and leave the counter as it
    is. The maps they install fit the instance when they are inverses of
    each other and use only indices below its counter. *)
Definition installs_fitting_maps (op : registry_op) (st : registry_state) : Prop :=
  match op with
  | SetMaps a_to_i i_to_a =>
      mutual_inverses a_to_i i_to_a ∧ indices_below (current_index st.1) i_to_a
  | LoadMaps database =>
      match st.2 !! (database +:+ "_a_to_i.json"),
            st.2 !! (database +:+ "_i_to_a.json") with
      | Some (JsonStrToInt a_to_i), Some (JsonIntToStr i_to_a) =>
          mutual_inverses a_to_i i_to_a ∧ indices_below (current_index st.1) i_to_a
      | _, _ => False
      end
  | _ => True
  end.

Fixpoint fitting_run (ops : list registry_op) (st : registry_state) : Prop :=
  match ops with
  | [] => True
  | op :: ops' => installs_fitting_maps op st ∧ fitting_run ops' (run_op op st)
  end.

Definition replaces_maps (op : registry_op) : bool :=
  match op with
  | LoadMaps _ | SetMaps _ _ => true
  | _ => false
  end.

(** These predicates can be decided by evaluation. *)
Global Instance mutual_inverses_dec a_to_i i_to_a : Decision (mutual_inverses a_to_i i_to_a).
Proof. unfold mutual_inverses. apply _. Defined.

Global Instance indices_below_dec counter i_to_a : Decision (indices_below counter i_to_a).
Proof. unfold indices_below. apply _. Defined.

Global Instance registry_consistent_dec reg : Decision (registry_consistent reg).
Proof. unfold registry_consistent. apply _. Defined.

Global Instance installs_fitting_maps_dec op st : Decision (installs_fitting_maps op st).
Proof.
  destruct op as [a|i|db|db| |a_to_i i_to_a]; simpl; try apply _.
  destruct (st.2 !! (db +:+ "_a_to_i.json")) as [[?|?]|]; try apply _.
  destruct (st.2 !! (db +:+ "_i_to_a.json")) as [[?|?]|]; apply _.
Defined.

Global Instance fitting_run_dec ops st : Decision (fitting_run ops st).
Proof. revert st. induction ops as [|op ops IH]; intros st; simpl; apply _. Defined.

(** A resumed run: a first process registers [accession] and saves; a second
    process, started with the same FILE_INDEX_START, loads what was saved
    and registers [new_accession]. The registry of the second process. *)
Definition resumed_run (FILE_INDEX_START : Z) (database accession new_accession : string)
  : registry :=
  let first := (find_index accession
                  (get_find_index_and_find_file_maps FILE_INDEX_START)).2 in
  let fs := save_maps database first ∅ in
  let second := (load_maps database fs
                   (get_find_index_and_find_file_maps FILE_INDEX_START)).2 in
  (find_index new_accession second).2.

(** ** Concrete worlds used in the examples below *)

(** A store with two cells whose payloads overlap [0, 100]: one from index
    0, registered under the empty accession, one from index 7, which the
    registry does not know. *)
Definition world_with_falsy_accessions : world :=
  World (find_index "" (get_find_index_and_find_file_maps 0)).2 ∅
        {["db" := [Cell 1 5 (Result 0 5 10); Cell 1 5 (Result 7 5 10)]]} ∅ ∅.

(** An empty store and one source, reachable by url and by path, whose only
    interval is [bed]. *)
Definition world_with_source (name : string) (bed : list feature) : world :=
  World (get_find_index_and_find_file_maps 0) ∅ {["db" := []]}
        {["http://host/files/" +:+ name := bed]}
        {["/data/" +:+ name := bed]}.


(** ** Further notions used by the properties below *)

(** The registry holds exactly the accessions of [seen], the n-th of them
    under index base + n, and its counter stands right after the last. *)
Definition registered_in_order (base : Z) (seen : list string) (reg : registry) : Prop :=
  current_index reg = base + Z.of_nat (length seen)
  ∧ NoDup seen
  ∧ (∀ a i, accession_to_index reg !! a = Some i ↔
            ∃ n : nat, seen !! n = Some a ∧ i = base + Z.of_nat n)
  ∧ (∀ i a, index_to_accession reg !! i = Some a ↔
            ∃ n : nat, seen !! n = Some a ∧ i = base + Z.of_nat n).

(** One turn of the loop of [load]. *)
Definition load_body (database url : string) : M () :=
  file_ ← get_remote_bed_file url;
  parts ← lift (Py.split url "/");
  name ← lift (Py.getitem_last parts);
  let accession := Py.replace name ".bed.gz" "" in
  file_index ← with_registry (find_index accession);
  write_data_for_file database file_index file_.
(** ** Sanity checks of the model on concrete inputs *)

Example filter_results_ex1 :
  filter_results [Result 0 5 10; Result 1 50 60; Result 2 8 20; Result 3 9 9] 9 12 2
  = Ok [Result 0 5 10; Result 2 8 20].
Proof. reflexivity. Qed.

Example range_ex : Py.range 5000 7200 1000 = Ok [5000; 6000; 7000].
Proof. reflexivity. Qed.
Example replace_ex : Py.replace "ENCFF001.bed.gz" ".bed.gz" "" = "ENCFF001"%string.
Proof. reflexivity. Qed.
Example split_ex : Py.split "http://h/a/b.bed.gz" "/" = Ok ["http:"; ""; "h"; "a"; "b.bed.gz"]%string.
Proof. reflexivity. Qed.
Example int_ex : (Py.int_of_str " -1_0 ", Py.int_of_str "1__0", Py.int_of_str "Un") = (Ok (-10), Raise ValueError, Raise ValueError).
Proof. reflexivity. Qed.


(** The end-to-end example of the specification (GAP = 1000, base 0). *)
Example end_to_end :
  let w := (load "db" ["http://host/files/acc1.bed.gz"]%string
              (world_with_source "acc1.bed.gz" [Feature "chr1" 5000 7200])).2 in
  arrays w !! "db"%string
  = Some [Cell 1 5000 (Result 0 5000 7200); Cell 1 6000 (Result 0 5000 7200);
          Cell 1 7000 (Result 0 5000 7200)]
  ∧ (query_region "db" 1 6500 9000 25 w).1 = Ok [(Some "acc1"%string, 5000, 7200)]
  ∧ (query_region "db" 1 0 100 25 w).1 = Ok [].
Proof. repeat split; reflexivity. Qed.

Example chromosome_labels :
  get_regions_from_bed
    [Feature "chr7" 1 2; Feature "chrUn_gl000220" 1 2; Feature "chrX" 3 4;
     Feature "chrM" 5 6]
  = Ok [(7, 1, 2); (23, 3, 4); (25, 5, 6)].
Proof. reflexivity. Qed.
(** ** Properties of the filter *)

Section filter_facts.
Context (start end_ limit : Z).
Implicit Types (results : list result) (r : result).

Lemma true_matches_cons r results :
  true_matches (r :: results) start end_ =
  if query_intersects_result r start end_
  then r :: true_matches results start end_
  else true_matches results start end_.
Proof.
  unfold true_matches. rewrite filter_cons.
  destruct (query_intersects_result r start end_); by case_decide.
Qed.

Lemma getitem_lookup {A} (a : list A) i x : a !! i = Some x → getitem a i = Ok x.
Proof. unfold getitem. by intros ->. Qed.

(** When the loop condition fails, nothing more would be selected. *)
Lemma sizing_stop results i c :
  (Z.of_nat c <? limit) && (i <? length results)%nat = false →
  take (Z.to_nat limit - c) (true_matches (drop i results) start end_) = [].
Proof.
  intros [Hc|Hi]%andb_false_iff.
  - apply Z.ltb_ge in Hc.
    by replace (Z.to_nat limit - c)%nat with 0%nat by lia.
  - apply Nat.ltb_ge in Hi. rewrite drop_ge by lia. apply take_nil.
Qed.

(** The sizing pass scans a prefix of what is left and stops exactly when
    [limit] matches are counted or the array is exhausted. *)
Lemma sizing_pass_spec results fuel i c :
  (length results - i ≤ fuel)%nat →
  ∃ n, sizing_pass fuel results start end_ limit i c
         = Ok ((i + n)%nat,
               (c + length (true_matches (take n (drop i results)) start end_))%nat)
       ∧ (i + n ≤ max i (length results))%nat
       ∧ true_matches (take n (drop i results)) start end_
         = take (Z.to_nat limit - c) (true_matches (drop i results) start end_).
Proof.
  revert i c. induction fuel as [|fuel IH]; intros i c Hfuel; simpl;
    destruct ((Z.of_nat c <? limit) && (i <? length results)%nat) eqn:Hcond;
    try (exists 0%nat; rewrite sizing_stop by done; simpl;
         rewrite !Nat.add_0_r; split; [done|split; [lia|done]]).
  - apply andb_true_iff in Hcond as [_ Hi%Nat.ltb_lt]. lia.
  - apply andb_true_iff in Hcond as [Hc%Z.ltb_lt Hi%Nat.ltb_lt].
    destruct (lookup_lt_is_Some_2 results i Hi) as [r Hr].
    rewrite (getitem_lookup _ _ _ Hr). simpl.
    rewrite (drop_S _ _ _ Hr).
    destruct (IH (S i) (if query_intersects_result r start end_ then S c else c))
      as (n & Hrun & Hle & Htake); [lia|].
    exists (S n). rewrite Hrun. simpl take. rewrite !true_matches_cons.
    destruct (query_intersects_result r start end_); simpl.
    + split; [f_equal; f_equal; lia|]. split; [lia|].
      rewrite Htake.
      replace (Z.to_nat limit - c)%nat with (S (Z.to_nat limit - S c)) by lia.
      done.
    + split; [f_equal; f_equal; lia|]. split; [lia|]. done.
Qed.

Lemma setitem_frontier (pre : list result) r q :
  setitem ((Some <$> pre) ++ None :: replicate q None) (length pre) r
  = Ok ((Some <$> (pre ++ [r])) ++ replicate q None).
Proof.
  unfold setitem. rewrite length_app, length_fmap. simpl.
  case_decide; [|lia]. f_equal.
  rewrite insert_app_r_alt by (rewrite length_fmap; lia).
  rewrite length_fmap, Nat.sub_diag. simpl.
  by rewrite fmap_app, <- app_assoc.
Qed.

(** The materialization pass fills the buffer from its frontier, provided
    the buffer has exactly as many free cells as matches remain. *)
Lemma materialization_pass_spec results m j (pre : list result) :
  (j + m ≤ length results)%nat →
  materialization_pass (seq j m) results start end_
    ((Some <$> pre)
       ++ replicate (length (true_matches (take m (drop j results)) start end_)) None)
    (length pre)
  = Ok (Some <$> (pre ++ true_matches (take m (drop j results)) start end_)).
Proof.
  revert j pre. induction m as [|m IH]; intros j pre Hm.
  - simpl. by rewrite !app_nil_r.
  - assert (j < length results)%nat as Hj by lia.
    destruct (lookup_lt_is_Some_2 results j Hj) as [r Hr].
    simpl seq. simpl materialization_pass.
    rewrite (getitem_lookup _ _ _ Hr). simpl.
    rewrite (drop_S _ _ _ Hr). simpl take. rewrite true_matches_cons.
    destruct (query_intersects_result r start end_); simpl.
    + rewrite setitem_frontier. simpl.
      replace (S (length pre)) with (length (pre ++ [r]))
        by (rewrite length_app; simpl; lia).
      rewrite IH by lia. by rewrite <- app_assoc.
    + by rewrite IH by lia.
Qed.

Lemma read_cells_written {A} (l : list A) : read_cells (Some <$> l) = Ok l.
Proof.
  unfold read_cells. induction l as [|x l IH]; [done|].
  cbn [fmap list_fmap mapM]. cbn [fmap list_fmap] in IH. by rewrite IH.
Qed.

(** What [filter_results] returns, in closed form. *)
Lemma filter_results_spec results :
  filter_results results start end_ limit
  = Ok (take (Z.to_nat limit) (true_matches results start end_)).
Proof.
  unfold filter_results.
  destruct (sizing_pass_spec results (length results) 0 0) as (n & -> & Hn & Htake);
    [lia|].
  simpl. rewrite drop_0 in *. rewrite Nat.sub_0_r in Htake.
  pose proof (materialization_pass_spec results n 0 [] ltac:(lia)) as Hm.
  rewrite drop_0 in Hm. simpl in Hm. unfold np_empty. rewrite Hm. simpl.
  by rewrite read_cells_written, Htake.
Qed.

Lemma single_pass_spec candidates buffer :
  single_pass candidates start end_ limit buffer
  = buffer ++ take (Z.to_nat limit - length buffer)
                   (true_matches candidates start end_).
Proof.
  revert buffer. induction candidates as [|c rest IH]; intros buffer.
  - cbn [single_pass]. unfold true_matches.
    by rewrite filter_nil, take_nil, app_nil_r.
  - cbn [single_pass]. rewrite true_matches_cons.
    destruct (Z.ltb_spec (Z.of_nat (length buffer)) limit) as [Hb|Hb].
    + destruct (query_intersects_result c start end_).
      * rewrite IH, length_app, <- app_assoc. simpl.
        replace (Z.to_nat limit - length buffer)%nat
          with (S (Z.to_nat limit - (length buffer + 1))) by lia.
        done.
      * apply IH.
    + replace (Z.to_nat limit - length buffer)%nat with 0%nat by lia.
      by rewrite take_0, app_nil_r.
Qed.
End filter_facts.

Lemma query_intersects_result_true r start end_ :
  query_intersects_result r start end_ = true ↔ f2 r >= start ∧ f1 r ≤ end_.
Proof.
  unfold query_intersects_result.
  rewrite andb_true_iff, Z.geb_le, Z.leb_le. lia.
Qed.

Lemma true_matches_overlap results start end_ :
  true_matches results start end_
  = filter (λ r, f2 r >= start ∧ f1 r ≤ end_) results.
Proof.
  unfold true_matches. apply list_filter_iff.
  intros r. apply query_intersects_result_true.
Qed.

(** C1: for every candidate array, window and limit >= 0, [filter_results]
    returns the candidates that truly overlap the window
    (end >= qstart and start <= qend), in arrival order, cut after [limit]
    of them: the output is the first [limit] true matches, a prefix of the
    list of all true matches (so no earlier match is dropped before the
    limit is reached), of length min(limit, number of true matches), and
    empty when limit = 0. *)
Theorem filter_results_bounded_exact (results : list result) (qstart qend limit : Z) :
  0 ≤ limit →
  ∃ out : list result,
    filter_results results qstart qend limit = Ok out
    ∧ out = take (Z.to_nat limit)
                 (filter (λ r, f2 r >= qstart ∧ f1 r ≤ qend) results)
    ∧ (∀ r, r ∈ out → r ∈ results ∧ f2 r >= qstart ∧ f1 r ≤ qend)
    ∧ out `sublist_of` results
    ∧ out `prefix_of` filter (λ r, f2 r >= qstart ∧ f1 r ≤ qend) results
    ∧ Z.of_nat (length out)
      = Z.min limit
          (Z.of_nat (length (filter (λ r, f2 r >= qstart ∧ f1 r ≤ qend) results)))
    ∧ (limit = 0 → out = []).
Proof.
  intros Hlimit. eexists. split; [apply filter_results_spec|].
  rewrite true_matches_overlap.
  set (matches := filter (λ r, f2 r >= qstart ∧ f1 r ≤ qend) results).
  split; [done|]. split; [|split; [|split; [|split]]].
  - intros r Hr.
    assert (r ∈ matches) as Hm.
    { apply elem_of_take in Hr as (i & Hi & _).
      apply list_elem_of_lookup. eauto. }
    apply list_elem_of_filter in Hm. tauto.
  - etrans; [apply sublist_take|apply sublist_filter].
  - apply prefix_take.
  - rewrite length_take. lia.
  - intros ->. done.
Qed.

(** The theorem at a window that two of three candidates overlap, limit 1. *)
Lemma filter_results_bounded_exact_witness :
  0 ≤ 1 ∧
  ∃ out : list result,
    filter_results [Result 0 5 10; Result 1 50 60; Result 2 8 20] 9 12 1 = Ok out
    ∧ out = [Result 0 5 10].
Proof.
  split; [lia|].
  destruct (filter_results_bounded_exact
              [Result 0 5 10; Result 1 50 60; Result 2 8 20] 9 12 1 ltac:(lia))
    as (out & Hrun & Hout & _).
  exists out. split; [exact Hrun|]. rewrite Hout. reflexivity.
Defined.

(** C7: the two-pass filter returns what a single bounded pass into a buffer
    capped at [limit] returns: same elements, same order, same length, for
    every candidate array, window and limit. *)
Theorem two_pass_equals_single_pass (results : list result) (qstart qend limit : Z) :
  filter_results results qstart qend limit
  = Ok (single_pass results qstart qend limit []).
Proof.
  rewrite filter_results_spec, single_pass_spec. simpl.
  by rewrite Nat.sub_0_r.
Qed.

(** ** Properties of the binner *)

Lemma range_length_positive start stop step :
  0 < step →
  ∀ i, 0 ≤ i < Py.range_length start stop step ↔ 0 ≤ i ∧ start + i * step < stop.
Proof.
  intros Hstep i. unfold Py.range_length.
  destruct (Z.ltb_spec 0 step) as [_|]; [|lia].
  destruct (Z.ltb_spec start stop) as [Hlt|Hge].
  - pose proof (Z.div_mod (stop - start - 1) step ltac:(lia)) as Hdm.
    pose proof (Z.mod_pos_bound (stop - start - 1) step Hstep) as Hmod.
    split.
    + intros [H0 Hi]. split; [done|]. nia.
    + intros [H0 Hi]. split; [done|]. nia.
  - split; [lia|]. intros [H0 Hi]. nia.
Qed.

Lemma elem_of_range_positive start stop step :
  0 < step →
  ∃ positions,
    Py.range start stop step = Ok positions
    ∧ ∀ p, p ∈ positions ↔ ∃ k, 0 ≤ k ∧ p = start + k * step ∧ p < stop.
Proof.
  intros Hstep. unfold Py.range.
  destruct (Z.eqb_spec step 0) as [|_]; [lia|].
  eexists. split; [done|]. intros p.
  rewrite list_elem_of_fmap. split.
  - intros (i & -> & Hi). apply elem_of_seqZ in Hi.
    exists i. rewrite Z.add_0_l in Hi.
    apply (range_length_positive start stop step Hstep) in Hi. tauto.
  - intros (k & Hk & -> & Hlt). exists k. split; [done|].
    apply elem_of_seqZ. rewrite Z.add_0_l.
    apply (range_length_positive start stop step Hstep). tauto.
Qed.

Lemma get_positions_for_region_spec (start end_ gap : Z) :
  0 < gap →
  ∃ positions : list Z,
    get_positions_for_region start end_ gap = Ok positions
    ∧ ∀ p, p ∈ positions ↔ ∃ k, 0 ≤ k ∧ p = start + k * gap ∧ p < end_.
Proof. apply elem_of_range_positive. Qed.

(** C3: for every interval [start, end) and positive step, the coordinates
    generated for storage are exactly the values start + k*gap with k >= 0
    that are below end; there are none if and only if start >= end; and
    [get_data_for_region] emits one datum per such coordinate, carrying the
    unquantized bounds. *)
Theorem generated_coordinates (start end_ gap : Z) :
  0 < gap →
  ∃ positions : list Z,
    get_positions_for_region start end_ gap = Ok positions
    ∧ (∀ p, p ∈ positions ↔ ∃ k, 0 ≤ k ∧ p = start + k * gap ∧ p < end_)
    ∧ (positions = [] ↔ start >= end_)
    ∧ ∀ file_index chrom,
        get_data_for_region file_index (chrom, start, end_) gap
        = Ok ((λ p, (chrom, p, (file_index, start, end_))) <$> positions).
Proof.
  intros Hgap. unfold get_data_for_region.
  destruct (get_positions_for_region_spec start end_ gap Hgap)
    as (positions & -> & Hin).
  exists positions. split; [done|]. split; [done|]. split; [|done].
  split.
  - intros ->. destruct (Z_lt_ge_dec start end_) as [Hlt|]; [|done].
    exfalso. apply (not_elem_of_nil start). apply Hin.
    exists 0. lia.
  - intros Hge. destruct positions as [|p ps]; [done|]. exfalso.
    destruct (proj1 (Hin p)) as (k & Hk & -> & Hlt); [left|]. nia.
Qed.

(** The theorem at the interval of the end-to-end example. *)
Lemma generated_coordinates_witness :
  0 < 1000 ∧
  ∃ positions : list Z,
    get_positions_for_region 5000 7200 1000 = Ok positions
    ∧ (∀ p, p ∈ positions ↔ ∃ k, 0 ≤ k ∧ p = 5000 + k * 1000 ∧ p < 7200)
    ∧ (positions = [] ↔ 5000 >= 7200)
    ∧ ∀ file_index chrom,
        get_data_for_region file_index (chrom, 5000, 7200) 1000
        = Ok ((λ p, (chrom, p, (file_index, 5000, 7200))) <$> positions).
Proof.
  split; [lia|]. apply (generated_coordinates 5000 7200 1000). lia.
Defined.

(** ** Properties of the widened range read *)

Lemma elem_of_pd_unique_go {A} `{EqDecision A} (seen l : list A) x :
  x ∈ pd_unique_go seen l ↔ x ∈ l ∧ x ∉ seen.
Proof.
  revert seen. induction l as [|y l IH]; intros seen; simpl.
  - split; [by intros ?%not_elem_of_nil|by intros [?%not_elem_of_nil _]].
  - case_decide as Hy.
    + rewrite IH, elem_of_cons. split; [tauto|].
      intros [[->|?] ?]; tauto.
    + rewrite !elem_of_cons, IH, elem_of_cons.
      destruct (decide (x = y)) as [->|]; tauto.
Qed.

Lemma elem_of_pd_unique {A} `{EqDecision A} (l : list A) x :
  x ∈ pd_unique l ↔ x ∈ l.
Proof.
  unfold pd_unique. rewrite elem_of_pd_unique_go.
  split; [tauto|]. intros ?. split; [done|]. apply not_elem_of_nil.
Qed.

Lemma elem_of_array_read (A : list cell) chrom lo hi r :
  r ∈ array_read A chrom lo hi ↔
  ∃ p, Cell chrom p r ∈ A ∧ lo ≤ p ∧ p < hi.
Proof.
  unfold array_read. rewrite list_elem_of_fmap. split.
  - intros ([c p r'] & -> & Hc). apply list_elem_of_filter in Hc as [(<- & ? & ?) ?].
    simpl in *. eauto.
  - intros (p & Hin & ? & ?). exists (Cell chrom p r). split; [done|].
    apply list_elem_of_filter. simpl. tauto.
Qed.

(** Every interval that overlaps the window has a coordinate in the
    widened window. *)
Lemma coordinate_in_widened_window (start end_ qstart qend : Z) :
  0 ≤ start → start < end_ → qstart ≤ qend → end_ >= qstart → start ≤ qend →
  ∃ k, 0 ≤ k ∧ start + k * GAP < end_
       ∧ Z.max 0 (qstart - GAP) ≤ start + k * GAP ≤ qend.
Proof.
  unfold GAP. intros H0 Hlt Hq He Hs.
  destruct (Z_le_gt_dec (qstart - 1000) start) as [Hnear|Hfar].
  - exists 0. lia.
  - exists ((qstart - start - 1) / 1000).
    pose proof (Z.div_mod (qstart - start - 1) 1000 ltac:(lia)) as Hdm.
    pose proof (Z.mod_pos_bound (qstart - start - 1) 1000 ltac:(lia)) as Hmod.
    assert (0 ≤ (qstart - start - 1) / 1000) by (apply Z.div_pos; lia).
    lia.
Qed.

Lemma positions_of_example_interval (qstart : Z) :
  get_positions_for_region (qstart - GAP + 1) (qstart + 10) GAP
  = Ok [qstart - GAP + 1; qstart + 1].
Proof.
  unfold get_positions_for_region, Py.range, Py.range_length, GAP. simpl.
  destruct (Z.ltb_spec (qstart - 1000 + 1) (qstart + 10)) as [_|]; [|lia].
  replace (qstart + 10 - (qstart - 1000 + 1) - 1) with 1008 by lia.
  change (seqZ 0 (1008 / 1000 + 1)) with [0; 1]. simpl.
  do 2 f_equal; [lia|f_equal; lia].
Qed.

(** C2, as the code has it: for every stored interval (0 <= start < end,
    the store's positions start at 0) that overlaps a window
    qstart <= qend, one of its coordinates lies in the widened window
    [max(0, qstart - GAP), qend], so the widened read of any array holding
    its cells returns it. The interval with start = qstart - GAP + 1 and
    end = qstart + 10 has the two coordinates qstart - GAP + 1 and
    qstart + 1; the unwidened window [qstart, qend] holds neither only
    when qend = qstart. *)
Theorem widened_read_sufficient
    (A : list cell) (file_index chrom start end_ qstart qend : Z) :
  0 ≤ start → start < end_ → qstart ≤ qend → end_ >= qstart → start ≤ qend →
  ∃ positions : list Z,
    get_positions_for_region start end_ GAP = Ok positions
    ∧ (∃ p, p ∈ positions ∧ Z.max 0 (qstart - GAP) ≤ p ≤ qend)
    ∧ ((∀ p, p ∈ positions → Cell chrom p (Result file_index start end_) ∈ A) →
       Result file_index start end_ ∈ read_candidates A chrom qstart qend)
    ∧ (start = qstart - GAP + 1 → end_ = qstart + 10 →
       positions = [qstart - GAP + 1; qstart + 1]
       ∧ ((∀ p, p ∈ positions → ¬ (qstart ≤ p ≤ qend)) ↔ qend = qstart)).
Proof.
  intros H0 Hlt Hq He Hs.
  destruct (get_positions_for_region_spec start end_ GAP ltac:(done))
    as (positions & Hpos & Hin).
  destruct (coordinate_in_widened_window start end_ qstart qend)
    as (k & Hk & Hkend & Hwin); [done..|].
  assert (start + k * GAP ∈ positions) as Hp by (apply Hin; eauto).
  exists positions. split; [done|]. split; [eauto|]. split.
  - intros HA. unfold read_candidates. apply elem_of_pd_unique.
    apply elem_of_array_read. exists (start + k * GAP).
    split; [by apply HA|]. lia.
  - intros -> ->. rewrite positions_of_example_interval in Hpos.
    injection Hpos as <-. split; [done|]. split.
    + intros Hmiss.
      destruct (Z_le_gt_dec qend qstart); [lia|]. exfalso.
      apply (Hmiss (qstart + 1)); [right; left|lia].
    + intros -> p Hp'. unfold GAP in Hp'.
      apply elem_of_cons in Hp' as [->|Hp']; [lia|].
      apply list_elem_of_singleton in Hp' as ->. lia.
Qed.

(** The theorem at the specification's example with qstart = 2000 and
    qend = 3000: the interval (1001, 2010). *)
Lemma widened_read_sufficient_witness :
  ∃ positions : list Z,
    get_positions_for_region 1001 2010 GAP = Ok positions
    ∧ (∃ p, p ∈ positions ∧ Z.max 0 (2000 - GAP) ≤ p ≤ 3000)
    ∧ ((∀ p, p ∈ positions → Cell 1 p (Result 0 1001 2010) ∈ []) →
       Result 0 1001 2010 ∈ read_candidates [] 1 2000 3000)
    ∧ (1001 = 2000 - GAP + 1 → 2010 = 2000 + 10 →
       positions = [2000 - GAP + 1; 2000 + 1]
       ∧ ((∀ p, p ∈ positions → ¬ (2000 ≤ p ≤ 3000)) ↔ 3000 = 2000)).
Proof.
  apply (widened_read_sufficient [] 0 1 1001 2010 2000 3000); lia.
Defined.

(** C2, the example as the specification words it, fails: with qstart = 2000
    and qend = 3000 the interval (qstart - GAP + 1, qstart + 10) has the
    coordinate 2001 inside the unwidened window, and an unwidened read
    [A[chrom, qstart:(qend + 1)]] of the array holding its cells returns it:
    it is not missed. *)
Lemma unwidened_read_finds_example_interval :
  get_positions_for_region (2000 - GAP + 1) (2000 + 10) GAP = Ok [1001; 2001]
  ∧ 2000 ≤ 2001 ≤ 3000
  ∧ Result 0 1001 2010
    ∈ array_read [Cell 1 1001 (Result 0 1001 2010); Cell 1 2001 (Result 0 1001 2010)]
        1 2000 (3000 + 1).
Proof.
  split; [reflexivity|]. split; [lia|].
  apply elem_of_array_read. exists 2001. split; [right; left|lia].
Qed.

(** ** Properties of the chromosome normaliser *)

Lemma digits_go_raises s acc after_digit e :
  Py.digits_go s acc after_digit = Raise e → e = ValueError.
Proof.
  revert acc after_digit. induction s as [|c s IH]; intros acc after_digit; simpl.
  - destruct after_digit; congruence.
  - destruct (Py.digit_of c); [apply IH|].
    destruct (Ascii.eqb c "_" && after_digit); [apply IH|congruence].
Qed.

Lemma int_of_str_raises s e : Py.int_of_str s = Raise e → e = ValueError.
Proof.
  unfold Py.int_of_str.
  assert (∀ t, Z.opp <$> Py.digits_go t 0 false = Raise e → e = ValueError) as Hopp.
  { intros t. destruct (Py.digits_go t 0 false) eqn:Hd; [done|].
    intros [= <-]. by eapply digits_go_raises. }
  destruct (Py.strip s) as [|c t] eqn:Hs; [apply digits_go_raises|].
  destruct (Ascii.ascii_dec c "+") as [->|]; [apply digits_go_raises|].
  destruct (Ascii.ascii_dec c "-") as [->|]; [apply Hopp|].
  destruct c as [[] [] [] [] [] [] [] []];
    first [ apply digits_go_raises | apply Hopp ].
Qed.

Lemma parse_chromosome_cases chromosome :
  let label := Py.replace chromosome "chr" "" in
  (label = "X"%string ∧ parse_chromosome chromosome = PyInt 23)
  ∨ (label = "Y"%string ∧ parse_chromosome chromosome = PyInt 24)
  ∨ (label = "M"%string ∧ parse_chromosome chromosome = PyInt 25)
  ∨ (label ≠ "X"%string ∧ label ≠ "Y"%string ∧ label ≠ "M"%string
     ∧ parse_chromosome chromosome = PyStr label).
Proof.
  intros label. unfold parse_chromosome. fold label.
  generalize label. clear. intros label. unfold CHROMOSOME_TO_NUMBER.
  destruct (decide (label = "X"%string)) as [->|HX]; [by left|].
  destruct (decide (label = "Y"%string)) as [->|HY]; [by right; left|].
  destruct (decide (label = "M"%string)) as [->|HM]; [by right; right; left|].
  right; right; right.
  by rewrite !lookup_insert_ne, lookup_empty by done.
Qed.

Lemma get_regions_from_bed_total bed : ∃ regions, get_regions_from_bed bed = Ok regions.
Proof.
  induction bed as [|feature bed [rest IH]]; [by eexists|]. simpl.
  destruct (int (parse_chromosome (feature_chrom feature))) as [n|e] eqn:Hint.
  - rewrite IH. by eexists.
  - assert (e = ValueError) as ->.
    { destruct (parse_chromosome (feature_chrom feature)); [done|].
      by eapply int_of_str_raises. }
    by eexists.
Qed.

(** C8, as the code has it: for every record, parsing either skips it and
    goes on with the rest, or yields it with an integer chromosome: 23, 24
    or 25 when the label with every occurrence of "chr" removed is X, Y or
    M, and otherwise the integer that int() reads from what is left. The
    integer is not confined to [1,25]; a record is skipped exactly when
    int() raises ValueError. *)
Theorem chromosome_parsed_or_skipped (record : feature) (bed : list feature) :
  let label := Py.replace (feature_chrom record) "chr" "" in
  ∃ rest : list region,
    get_regions_from_bed bed = Ok rest
    ∧ ((∃ n : Z,
          get_regions_from_bed (record :: bed)
          = Ok ((n, feature_start record, feature_end record) :: rest)
          ∧ ((label = "X"%string ∧ n = 23)
             ∨ (label = "Y"%string ∧ n = 24)
             ∨ (label = "M"%string ∧ n = 25)
             ∨ (label ≠ "X"%string ∧ label ≠ "Y"%string ∧ label ≠ "M"%string
                ∧ Py.int_of_str label = Ok n)))
       ∨ (get_regions_from_bed (record :: bed) = Ok rest
          ∧ label ≠ "X"%string ∧ label ≠ "Y"%string ∧ label ≠ "M"%string
          ∧ Py.int_of_str label = Raise ValueError)).
Proof.
  intros label. destruct (get_regions_from_bed_total bed) as [rest Hrest].
  exists rest. split; [done|]. simpl. rewrite Hrest.
  destruct (parse_chromosome_cases (feature_chrom record))
    as [[HX ->]|[[HY ->]|[[HM ->]|(HX & HY & HM & ->)]]];
    subst label; unfold Py.replace in *; simpl.
  - left. exists 23. split; [done|]. by left.
  - left. exists 24. split; [done|]. by right; left.
  - left. exists 25. split; [done|]. by right; right; left.
  - destruct (Py.int_of_str (Py.replace_go "chr" "" 0 (feature_chrom record)))
      as [n|e] eqn:Hint.
    + left. exists n. split; [done|]. by right; right; right.
    + apply int_of_str_raises in Hint as Heq. subst e. by right.
Qed.

(** C8, as the specification words it, fails: the label "chr99" is neither
    skipped nor mapped into [1,25]; the record is yielded with
    chromosome 99. *)
Lemma chromosome_outside_1_25 :
  get_regions_from_bed [Feature "chr99" 1 2] = Ok [(99, 1, 2)]
  ∧ ¬ (get_regions_from_bed [Feature "chr99" 1 2] = Ok []
       ∨ ∃ n, get_regions_from_bed [Feature "chr99" 1 2] = Ok [(n, 1, 2)]
              ∧ 1 ≤ n ≤ 25).
Proof.
  assert (get_regions_from_bed [Feature "chr99" 1 2] = Ok [(99, 1, 2)]) as ->
    by reflexivity.
  split; [done|].
  intros [Hskip|(n & Hn & Hrange)]; [discriminate Hskip|].
  injection Hn as <-. lia.
Qed.

(** ** Properties of the accession registry *)

Section registry_facts.
Implicit Types (reg : registry) (a : string) (i : Z).

Lemma find_index_known a i reg :
  accession_to_index reg !! a = Some i → find_index a reg = (Ok i, reg).
Proof. intros Ha. unfold find_index. by rewrite Ha, Ha. Qed.

Lemma find_index_new a reg :
  accession_to_index reg !! a = None →
  find_index a reg
  = (Ok (current_index reg),
     Registry (current_index reg + 1)
              (<[a := current_index reg]> (accession_to_index reg))
              (<[current_index reg := a]> (index_to_accession reg))).
Proof.
  intros Ha. unfold find_index. rewrite Ha. simpl. by rewrite lookup_insert_eq.
Qed.

(** A second call returns the index of the first and changes nothing, in
    every state of the registry. *)
Lemma find_index_idempotent a reg :
  ∃ i reg', find_index a reg = (Ok i, reg') ∧ find_index a reg' = (Ok i, reg').
Proof.
  destruct (accession_to_index reg !! a) as [i|] eqn:Ha.
  - exists i, reg. split; by apply find_index_known.
  - eexists _, _. split; [by apply find_index_new|].
    apply find_index_known. simpl. apply lookup_insert_eq.
Qed.

Lemma fresh_registry_consistent FILE_INDEX_START :
  registry_consistent (get_find_index_and_find_file_maps FILE_INDEX_START).
Proof.
  unfold registry_consistent, mutual_inverses, indices_below. simpl.
  split; [split|]; apply map_Forall_empty.
Qed.

Lemma find_index_consistent a reg :
  registry_consistent reg → registry_consistent (find_index a reg).2.
Proof.
  intros [[Hfwd Hrev] Hbelow].
  destruct (accession_to_index reg !! a) as [i|] eqn:Ha.
  { by rewrite (find_index_known _ _ _ Ha). }
  rewrite (find_index_new _ _ Ha). simpl.
  assert (index_to_accession reg !! current_index reg = None) as Hfree.
  { destruct (index_to_accession reg !! current_index reg) eqn:Hc; [|done].
    apply Hbelow in Hc. lia. }
  split; [split|]; simpl.
  - intros b j Hb. apply lookup_insert_Some in Hb as [[<- <-]|[Hne Hb]].
    + apply lookup_insert_eq.
    + rewrite lookup_insert_ne; [by apply Hfwd|].
      intros <-. apply Hfwd in Hb. congruence.
  - intros j b Hj. apply lookup_insert_Some in Hj as [[<- <-]|[Hne Hj]].
    + apply lookup_insert_eq.
    + rewrite lookup_insert_ne; [by apply Hrev|].
      intros <-. apply Hrev in Hj. congruence.
  - intros j b Hj. apply lookup_insert_Some in Hj as [[<- <-]|[Hne Hj]]; [lia|].
    apply Hbelow in Hj. simpl in Hj. lia.
Qed.

(** [find_index] keeps every binding and never lowers the counter. *)
Lemma find_index_keeps a reg :
  registry_consistent reg →
  current_index reg ≤ current_index (find_index a reg).2
  ∧ (∀ b j, accession_to_index reg !! b = Some j →
            accession_to_index (find_index a reg).2 !! b = Some j)
  ∧ (∀ j b, index_to_accession reg !! j = Some b →
            index_to_accession (find_index a reg).2 !! j = Some b).
Proof.
  intros [[Hfwd Hrev] Hbelow].
  destruct (accession_to_index reg !! a) as [i|] eqn:Ha.
  { rewrite (find_index_known _ _ _ Ha). simpl. split; [lia|done]. }
  rewrite (find_index_new _ _ Ha). simpl. split; [lia|]. split.
  - intros b j Hb. rewrite lookup_insert_ne; [done|]. congruence.
  - intros j b Hj. rewrite lookup_insert_ne; [done|].
    intros <-. apply Hbelow in Hj. lia.
Qed.
End registry_facts.

Lemma run_op_consistent (op : registry_op) (st : registry_state) :
  registry_consistent st.1 → installs_fitting_maps op st →
  registry_consistent (run_op op st).1
  ∧ current_index st.1 ≤ current_index (run_op op st).1
  ∧ (replaces_maps op = false →
     (∀ a i, accession_to_index st.1 !! a = Some i →
             accession_to_index (run_op op st).1 !! a = Some i)
     ∧ (∀ i a, index_to_accession st.1 !! i = Some a →
               index_to_accession (run_op op st).1 !! i = Some a)).
Proof.
  destruct st as [reg fs]. intros Hcons Hfit.
  destruct op as [a|i|db|db| |a_to_i i_to_a]; simpl in *;
    try (split; [done|split; [lia|done]]).
  - split; [by apply find_index_consistent|].
    destruct (find_index_keeps a reg Hcons) as (? & ? & ?). done.
  - unfold load_maps, load_forward_map, load_reverse_map.
    destruct (fs !! (db +:+ "_a_to_i.json")) as [[a_to_i|]|]; try done.
    destruct (fs !! (db +:+ "_i_to_a.json")) as [[|i_to_a]|]; done.
Qed.

Lemma run_ops_consistent (ops : list registry_op) (st : registry_state) :
  registry_consistent st.1 → fitting_run ops st →
  registry_consistent (run_ops ops st).1
  ∧ current_index st.1 ≤ current_index (run_ops ops st).1
  ∧ (forallb (λ op, negb (replaces_maps op)) ops = true →
     (∀ a i, accession_to_index st.1 !! a = Some i →
             accession_to_index (run_ops ops st).1 !! a = Some i)
     ∧ (∀ i a, index_to_accession st.1 !! i = Some a →
               index_to_accession (run_ops ops st).1 !! i = Some a)).
Proof.
  revert st. induction ops as [|op ops IH]; intros st Hcons Hfit.
  { simpl. split; [done|]. split; [lia|done]. }
  destruct Hfit as [Hop Hfit].
  destruct (run_op_consistent op st Hcons Hop) as (Hcons' & Hle & Hkeep).
  destruct (IH (run_op op st) Hcons' Hfit) as (Hcons'' & Hle' & Hkeep').
  change (run_ops (op :: ops) st) with (run_ops ops (run_op op st)).
  split; [done|]. split; [lia|]. simpl forallb.
  intros [Hnot Hrest]%andb_true_iff. apply negb_true_iff in Hnot.
  destruct (Hkeep Hnot) as [Hf Hr]. destruct (Hkeep' Hrest) as [Hf' Hr'].
  split; [intros a i Ha; by apply Hf', Hf|intros i a Hi; by apply Hr', Hr].
Qed.

(** C4, as the code has it: from a registry whose maps are inverses of each
    other with every index below the counter (a fresh registry is one), a
    run of find_index, find_file, save, load, get_maps and set_maps keeps
    the two maps exact inverses and the indices below the counter, provided
    each load or set_maps installs maps that are themselves inverses with
    indices below the counter, which these two operations leave untouched.
    Between such replacements no binding changes: an index once assigned
    stays with its accession, and a new accession gets the counter, above
    every index in use. *)
Theorem registry_maps_stay_inverse
    (ops : list registry_op) (reg : registry) (fs : gmap string json_doc) :
  registry_consistent reg → fitting_run ops (reg, fs) →
  let reg' := (run_ops ops (reg, fs)).1 in
  mutual_inverses (accession_to_index reg') (index_to_accession reg')
  ∧ indices_below (current_index reg') (index_to_accession reg')
  ∧ current_index reg ≤ current_index reg'
  ∧ (forallb (λ op, negb (replaces_maps op)) ops = true →
     (∀ a i, accession_to_index reg !! a = Some i →
             accession_to_index reg' !! a = Some i)
     ∧ (∀ i a, index_to_accession reg !! i = Some a →
               index_to_accession reg' !! i = Some a)).
Proof.
  intros Hcons Hfit.
  destruct (run_ops_consistent ops (reg, fs) Hcons Hfit) as ([Hinv Hbelow] & Hle & Hkeep).
  simpl. done.
Qed.

(** The theorem on a run from a fresh registry that registers, saves,
    registers again, reloads the snapshot and registers a third accession:
    the counter is 2 at the reload and the snapshot uses index 0 only. *)
Lemma registry_maps_stay_inverse_witness :
  let ops := [FindIndex "a"; FindFile 0; SaveMaps "db"; FindIndex "b"; GetMaps;
              LoadMaps "db"; FindIndex "c"] in
  let reg := get_find_index_and_find_file_maps 0 in
  let reg' := (run_ops ops (reg, ∅)).1 in
  mutual_inverses (accession_to_index reg') (index_to_accession reg')
  ∧ indices_below (current_index reg') (index_to_accession reg')
  ∧ current_index reg ≤ current_index reg'
  ∧ (forallb (λ op, negb (replaces_maps op)) ops = true →
     (∀ a i, accession_to_index reg !! a = Some i →
             accession_to_index reg' !! a = Some i)
     ∧ (∀ i a, index_to_accession reg !! i = Some a →
               index_to_accession reg' !! i = Some a)).
Proof.
  apply (registry_maps_stay_inverse
           [FindIndex "a"; FindFile 0; SaveMaps "db"; FindIndex "b"; GetMaps;
            LoadMaps "db"; FindIndex "c"]
           (get_find_index_and_find_file_maps 0) ∅).
  - apply (bool_decide_unpack _). vm_compute. exact I.
  - apply (bool_decide_unpack _). vm_compute. exact I.
Defined.

(** C4, as the specification words it, fails in a resumed run: the second
    process loads the saved maps, its counter still at FILE_INDEX_START, so
    the new accession "b" is given index 0, which "a" holds. The forward
    map then sends both to 0 and the reverse map sends 0 to "b": the index
    is reused and the maps are no longer inverses. *)
Lemma resumed_run_reuses_index :
  let reg := resumed_run 0 "db" "a" "b" in
  accession_to_index reg !! "a" = Some 0
  ∧ accession_to_index reg !! "b" = Some 0
  ∧ index_to_accession reg !! 0 = Some "b"%string
  ∧ ¬ mutual_inverses (accession_to_index reg) (index_to_accession reg).
Proof.
  split; [reflexivity|]. split; [reflexivity|]. split; [reflexivity|].
  intros [Hfwd _].
  specialize (Hfwd "a"%string 0 eq_refl). vm_compute in Hfwd. discriminate Hfwd.
Qed.

(** Every registry reached from a fresh one by a fitting run resolves its
    forward map through its reverse map. *)
Lemma fitting_run_resolved (ops : list registry_op) (FILE_INDEX_START : Z)
    (fs : gmap string json_doc) :
  fitting_run ops (get_find_index_and_find_file_maps FILE_INDEX_START, fs) →
  let reg := (run_ops ops (get_find_index_and_find_file_maps FILE_INDEX_START, fs)).1 in
  map_Forall (λ b j, index_to_accession reg !! j = Some b) (accession_to_index reg).
Proof.
  intros Hfit.
  destruct (run_ops_consistent ops
              (get_find_index_and_find_file_maps FILE_INDEX_START, fs)
              (fresh_registry_consistent FILE_INDEX_START) Hfit)
    as ([[Hfwd _] _] & _).
  exact Hfwd.
Qed.

(** C6, as the code has it: a repeated [find_index] returns the same index
    and changes nothing (in every state of the registry), and
    [find_file] applied to that index gives the accession back, for every
    registry whose forward map is resolved by its reverse map, as it is in
    every instance driven from creation by find_index, find_file, save and
    get_maps, and by load and set_maps that install fitting maps. *)
Theorem find_index_idempotent_and_resolved (a : string) (reg : registry) :
  map_Forall (λ b j, index_to_accession reg !! j = Some b) (accession_to_index reg) →
  ∃ (i : Z) (reg' : registry),
    find_index a reg = (Ok i, reg')
    ∧ find_index a reg' = (Ok i, reg')
    ∧ find_file i reg' = Some a.
Proof.
  intros Hres. destruct (find_index_idempotent a reg) as (i & reg' & H1 & H2).
  exists i, reg'. split; [done|]. split; [done|].
  destruct (accession_to_index reg !! a) as [j|] eqn:Ha.
  - rewrite (find_index_known _ _ _ Ha) in H1. injection H1 as <- <-.
    by apply Hres.
  - rewrite (find_index_new _ _ Ha) in H1. injection H1 as <- <-.
    unfold find_file. simpl. apply lookup_insert_eq.
Qed.

(** The theorem on a registry that already holds "a": a known accession and
    a new one. *)
Lemma find_index_idempotent_and_resolved_witness :
  let reg := (find_index "a" (get_find_index_and_find_file_maps 0)).2 in
  (∃ (i : Z) (reg' : registry),
     find_index "a" reg = (Ok i, reg') ∧ find_index "a" reg' = (Ok i, reg')
     ∧ find_file i reg' = Some "a"%string)
  ∧ (∃ (i : Z) (reg' : registry),
       find_index "b" reg = (Ok i, reg') ∧ find_index "b" reg' = (Ok i, reg')
       ∧ find_file i reg' = Some "b"%string).
Proof.
  split.
  - apply (find_index_idempotent_and_resolved "a"
             (find_index "a" (get_find_index_and_find_file_maps 0)).2).
    apply (bool_decide_unpack _). vm_compute. exact I.
  - apply (find_index_idempotent_and_resolved "b"
             (find_index "a" (get_find_index_and_find_file_maps 0)).2).
    apply (bool_decide_unpack _). vm_compute. exact I.
Defined.

(** C6, as the specification words it, fails on the registry of a resumed
    run: find_index("a") returns 0 and find_file(0) returns "b". *)
Lemma resumed_run_resolves_to_other_accession :
  let reg := resumed_run 0 "db" "a" "b" in
  find_index "a" reg = (Ok 0, reg)
  ∧ find_file 0 reg = Some "b"%string
  ∧ ¬ (∀ i reg', find_index "a" reg = (Ok i, reg') → find_file i reg' = Some "a"%string).
Proof.
  assert (find_index "a" (resumed_run 0 "db" "a" "b")
          = (Ok 0, resumed_run 0 "db" "a" "b")) as Hrun
    by (apply find_index_known; reflexivity).
  split; [exact Hrun|]. split; [reflexivity|].
  intros Hall. specialize (Hall _ _ Hrun). vm_compute in Hall. discriminate Hall.
Qed.

(** ** Properties of the queries *)

Lemma truthy_false filename :
  truthy filename = false ↔ filename = None ∨ filename = Some ""%string.
Proof.
  destruct filename as [[|c s]|]; simpl; split; intros H;
    try done; try (by left); try (by right); by destruct H.
Qed.

Lemma get_filtered_file_results_spec reg results start end_ limit :
  get_filtered_file_results reg results start end_ limit
  = Ok (omap (λ r, if truthy (find_file (f0 r) reg) then find_file (f0 r) reg else None)
             (take (Z.to_nat limit)
                   (filter (λ r, f2 r >= start ∧ f1 r ≤ end_) results))).
Proof.
  unfold get_filtered_file_results.
  by rewrite filter_results_spec, true_matches_overlap.
Qed.

(** C10: [query_file] leaves out every surviving candidate whose resolved
    accession is false in Python's sense: the names returned are exactly
    the non-empty accessions that [find_file] gives for the survivors of
    the bounded filter, so a survivor whose index the registry does not
    know (None) or whose registered accession is the empty string adds
    nothing, true match or not. *)
Theorem query_file_drops_falsy_accessions
    (database : string) (chrom start end_ limit : Z) (w : world) (A : list cell) :
  arrays w !! database = Some A →
  let survivors :=
    take (Z.to_nat limit)
         (filter (λ r, f2 r >= start ∧ f1 r ≤ end_)
                 (read_candidates A chrom start end_)) in
  ∃ names : list string,
    query_file database chrom start end_ limit w = (Ok names, w)
    ∧ (∀ name, name ∈ names ↔
         name ≠ ""%string
         ∧ ∃ r, r ∈ survivors ∧ find_file (f0 r) (the_registry w) = Some name)
    ∧ (EmptyString ∉ names)
    ∧ (∀ r, r ∈ survivors → truthy (find_file (f0 r) (the_registry w)) = false →
         find_file (f0 r) (the_registry w) = None
         ∨ (find_file (f0 r) (the_registry w) = Some ""%string
            ∧ EmptyString ∉ names)).
Proof.
  intros Harr survivors.
  unfold query_file, mbind, M_bind, open_array, read_registry, lift, mret, M_ret.
  rewrite Harr, get_filtered_file_results_spec. fold survivors.
  eexists. split; [done|].
  assert (∀ name,
    name ∈ pd_unique
      (omap (λ r, if truthy (find_file (f0 r) (the_registry w))
                  then find_file (f0 r) (the_registry w) else None) survivors)
    ↔ name ≠ ""%string
      ∧ ∃ r, r ∈ survivors ∧ find_file (f0 r) (the_registry w) = Some name) as Hin.
  { intros name. rewrite elem_of_pd_unique, list_elem_of_omap. split.
    - intros (r & Hr & Hname).
      destruct (find_file (f0 r) (the_registry w)) as [[|c s]|] eqn:Hf;
        simpl in Hname; try done.
      injection Hname as <-. split; [done|]. eauto.
    - intros (Hne & r & Hr & Hf). exists r. split; [done|]. rewrite Hf.
      destruct name; [done|]. done. }
  split; [exact Hin|].
  assert (EmptyString ∉
    pd_unique
      (omap (λ r, if truthy (find_file (f0 r) (the_registry w))
                  then find_file (f0 r) (the_registry w) else None) survivors))
    as Hempty.
  { intros [Hne _]%Hin. done. }
  split; [exact Hempty|].
  intros r Hr [->| ->]%truthy_false; [by left|by right].
Qed.

(** The theorem on a store holding two true matches, one from index 0,
    registered under the empty accession, one from the unknown index 7:
    nothing is returned. *)
Lemma query_file_drops_falsy_accessions_witness :
  query_file "db" 1 0 100 25 world_with_falsy_accessions
  = (Ok [], world_with_falsy_accessions)
  ∧ ∃ names : list string,
      query_file "db" 1 0 100 25 world_with_falsy_accessions
      = (Ok names, world_with_falsy_accessions)
      ∧ (EmptyString ∉ names).
Proof.
  split; [reflexivity|].
  destruct (query_file_drops_falsy_accessions "db" 1 0 100 25
              world_with_falsy_accessions
              [Cell 1 5 (Result 0 5 10); Cell 1 5 (Result 7 5 10)]
              ltac:(reflexivity))
    as (names & Hrun & _ & Hempty & _).
  exists names. split; [exact Hrun|exact Hempty].
Defined.

(** ** Ingestion *)

(** A source that yields no coordinate makes [write_data_for_file] raise:
    nothing can be unpacked into [chroms, positions, data]. *)
Lemma write_data_for_file_empty (database : string) (file_index : Z)
    (file_ : list feature) (w : world) :
  generate_positions_from_regions file_index file_ GAP = Ok [] →
  write_data_for_file database file_index file_ w = (Raise ValueError, w).
Proof.
  intros Hgen. unfold write_data_for_file, mbind, M_bind, lift.
  by rewrite Hgen.
Qed.

(** C5: an empty outcome of a query is not an error, but an empty outcome of
    ingestion is: a source whose only interval is degenerate (start >= end),
    or lies on a label that is skipped, produces no coordinate, and both
    entry points raise ValueError on it; a query whose widened read returns
    no candidate returns the empty list. *)
Theorem empty_ingestion_raises :
  let degenerate := [Feature "chr1" 10 10] in
  let skipped := [Feature "chrUn_gl000220" 100 200] in
  generate_positions_from_regions 0 degenerate GAP = Ok []
  ∧ generate_positions_from_regions 0 skipped GAP = Ok []
  ∧ (load_local "db" ["/data/s1.bed.gz"]%string
       (world_with_source "s1.bed.gz" degenerate)).1 = Raise ValueError
  ∧ (load "db" ["http://host/files/s1.bed.gz"]%string
       (world_with_source "s1.bed.gz" degenerate)).1 = Raise ValueError
  ∧ (load_local "db" ["/data/s1.bed.gz"]%string
       (world_with_source "s1.bed.gz" skipped)).1 = Raise ValueError
  ∧ (query_region "db" 1 0 100 25 (world_with_source "s1.bed.gz" degenerate)).1
    = Ok []
  ∧ (query_file "db" 1 0 100 25 (world_with_source "s1.bed.gz" degenerate)).1
    = Ok [].
Proof. repeat split; reflexivity. Qed.

(** C9: [load] registers the accession it derives from the url, but
    [load_local] registers the file name with its ".bed.gz" suffix: after
    [load_local] on "/data/ENCFF001.bed.gz" the cells carry index 0, which
    belongs to "ENCFF001.bed.gz", while the derived accession "ENCFF001"
    is unknown to the registry and [find_index] would give it index 1. *)
Theorem load_local_registers_file_name :
  let w := world_with_source "ENCFF001.bed.gz" [Feature "chr1" 5000 7200] in
  let w_local := (load_local "db" ["/data/ENCFF001.bed.gz"] w).2 in
  let w_remote := (load "db" ["http://host/files/ENCFF001.bed.gz"] w).2 in
  arrays w_local !! "db"
  = Some [Cell 1 5000 (Result 0 5000 7200); Cell 1 6000 (Result 0 5000 7200);
          Cell 1 7000 (Result 0 5000 7200)]
  ∧ accession_to_index (the_registry w_local) !! "ENCFF001.bed.gz" = Some 0
  ∧ accession_to_index (the_registry w_local) !! "ENCFF001" = None
  ∧ (find_index "ENCFF001" (the_registry w_local)).1 = Ok 1
  ∧ arrays w_remote !! "db" = arrays w_local !! "db"
  ∧ accession_to_index (the_registry w_remote) !! "ENCFF001" = Some 0
  ∧ (find_index "ENCFF001" (the_registry w_remote)).1 = Ok 0.
Proof. repeat split; reflexivity. Qed.

(** * Further properties of the code *)

(** ** The filter and the limit *)

(** X1: [filter_results] grows with the limit: the output for a smaller
    limit is a prefix of the output for a larger one; a limit of zero or
    less gives the empty array; a limit of at least the number of
    candidates gives every true match. *)
Theorem filter_results_limit_monotone
    (results : list result) (start end_ limit1 limit2 : Z) :
  limit1 ≤ limit2 →
  ∃ out1 out2 : list result,
    filter_results results start end_ limit1 = Ok out1
    ∧ filter_results results start end_ limit2 = Ok out2
    ∧ out1 `prefix_of` out2
    ∧ (limit1 ≤ 0 → out1 = [])
    ∧ (Z.of_nat (length results) ≤ limit2 →
       out2 = filter (λ r, f2 r >= start ∧ f1 r ≤ end_) results).
Proof.
  intros Hle. eexists _, _.
  split; [apply filter_results_spec|]. split; [apply filter_results_spec|].
  rewrite true_matches_overlap.
  set (matches := filter (λ r, f2 r >= start ∧ f1 r ≤ end_) results).
  split; [|split].
  - replace (take (Z.to_nat limit1) matches)
      with (take (Z.to_nat limit1) (take (Z.to_nat limit2) matches)).
    + apply prefix_take.
    + rewrite take_take. f_equal. lia.
  - intros Hneg. by replace (Z.to_nat limit1) with 0%nat by lia.
  - intros Hall. apply take_ge.
    pose proof (length_filter (λ r, f2 r >= start ∧ f1 r ≤ end_) results).
    fold matches in H. lia.
Qed.

Lemma filter_results_limit_monotone_witness :
  ∃ out1 out2 : list result,
    filter_results [Result 0 5 10; Result 1 50 60; Result 2 8 20] 9 12 1 = Ok out1
    ∧ filter_results [Result 0 5 10; Result 1 50 60; Result 2 8 20] 9 12 3 = Ok out2
    ∧ out1 `prefix_of` out2
    ∧ (1 ≤ 0 → out1 = [])
    ∧ (Z.of_nat (length [Result 0 5 10; Result 1 50 60; Result 2 8 20]) ≤ 3 →
       out2 = filter (λ r, f2 r >= 9 ∧ f1 r ≤ 12)
                     [Result 0 5 10; Result 1 50 60; Result 2 8 20]).
Proof.
  apply (filter_results_limit_monotone
           [Result 0 5 10; Result 1 50 60; Result 2 8 20] 9 12 1 3).
  lia.
Defined.

(** ** The coordinates of one interval *)

(** X2: for a positive step the k-th coordinate generated for [start, end)
    is start + k*gap, and there are ceil((end - start) / gap) of them, none
    when end <= start. *)
Theorem positions_count_and_order (start end_ gap : Z) :
  0 < gap →
  ∃ positions : list Z,
    get_positions_for_region start end_ gap = Ok positions
    ∧ Z.of_nat (length positions) = Z.max 0 ((end_ - start + gap - 1) / gap)
    ∧ ∀ k : nat, (k < length positions)%nat →
        positions !! k = Some (start + Z.of_nat k * gap).
Proof.
  intros Hgap. unfold get_positions_for_region, Py.range.
  destruct (Z.eqb_spec gap 0) as [|_]; [lia|].
  eexists. split; [done|].
  assert (Py.range_length start end_ gap
          = Z.max 0 ((end_ - start + gap - 1) / gap)) as Hlen.
  { unfold Py.range_length.
    destruct (Z.ltb_spec 0 gap) as [_|]; [|lia].
    replace (end_ - start + gap - 1) with (end_ - start - 1 + 1 * gap) by lia.
    rewrite Z.div_add by lia.
    destruct (Z.ltb_spec start end_) as [Hlt|Hge].
    - assert (0 ≤ (end_ - start - 1) / gap) by (apply Z.div_pos; lia). lia.
    - assert ((end_ - start - 1) / gap < 0)
        by (apply Z.div_lt_upper_bound; lia).
      lia. }
  rewrite length_fmap, length_seqZ, Hlen.
  split; [lia|].
  intros k Hk. rewrite list_lookup_fmap, lookup_seqZ_lt by lia. simpl.
  f_equal; lia.
Qed.

Lemma positions_count_and_order_witness :
  ∃ positions : list Z,
    get_positions_for_region 5000 7200 1000 = Ok positions
    ∧ Z.of_nat (length positions) = Z.max 0 ((7200 - 5000 + 1000 - 1) / 1000)
    ∧ ∀ k : nat, (k < length positions)%nat →
        positions !! k = Some (5000 + Z.of_nat k * 1000).
Proof. apply (positions_count_and_order 5000 7200 1000). lia. Defined.

(** ** Chromosome labels and the records of a source *)

(** X3: the "chr" prefix is optional: a label parses the same with and
    without it. *)
Theorem parse_chromosome_prefix_optional (label : string) :
  parse_chromosome ("chr" +:+ label) = parse_chromosome label.
Proof.
  assert (Py.replace ("chr" +:+ label) "chr" EmptyString
          = Py.replace label "chr" EmptyString) as Hstrip.
  { unfold Py.replace.
    change ("chr" +:+ label)
      with (String "c"%char (String "h"%char (String "r"%char label))).
    cbn. by destruct label. }
  unfold parse_chromosome. by rewrite Hstrip.
Qed.


(** ** What one source contributes to the store *)

Lemma mapM_get_data_for_region (file_index gap : Z) (regions : list region) :
  0 < gap →
  ∃ data : list (list datum),
    mapM (λ region, get_data_for_region file_index region gap) regions = Ok data
    ∧ ∀ d, d ∈ concat data ↔
        ∃ chrom start end_ k,
          (chrom, start, end_) ∈ regions ∧ 0 ≤ k ∧ start + k * gap < end_
          ∧ d = (chrom, start + k * gap, (file_index, start, end_)).
Proof.
  intros Hgap. induction regions as [|[[chrom start] end_] regions (data & IH & Hin)].
  { exists []. split; [done|]. intros d. simpl. split.
    - by intros ?%not_elem_of_nil.
    - intros (? & ? & ? & ? & ?%not_elem_of_nil & _). done. }
  destruct (get_positions_for_region_spec start end_ gap Hgap)
    as (positions & Hpos & Hp).
  exists (((λ p, (chrom, p, (file_index, start, end_))) <$> positions) :: data).
  split.
  { assert (get_data_for_region file_index (chrom, start, end_) gap
            = Ok ((λ p, (chrom, p, (file_index, start, end_))) <$> positions))
      as Hone by (unfold get_data_for_region; by rewrite Hpos).
    cbn -[get_data_for_region]. rewrite Hone. cbn -[get_data_for_region].
    by rewrite IH. }
  intros d. simpl. rewrite elem_of_app, list_elem_of_fmap, Hin. split.
  - intros [(p & -> & (k & Hk & -> & Hlt)%Hp)|(c & s & e & k & Hr & Hk & Hlt & ->)].
    + exists chrom, start, end_, k. split; [left|done].
    + exists c, s, e, k. split; [by right|done].
  - intros (c & s & e & k & Hr & Hk & Hlt & ->).
    apply elem_of_cons in Hr as [[= -> -> ->]|Hr].
    + left. exists (start + k * gap). split; [done|]. apply Hp. eauto.
    + right. exists c, s, e, k. done.
Qed.

Lemma generate_positions_from_regions_spec (file_index : Z) (file_ : list feature)
    (gap : Z) :
  0 < gap →
  ∃ (regions : list region) (data : list datum),
    get_regions_from_bed file_ = Ok regions
    ∧ generate_positions_from_regions file_index file_ gap = Ok data
    ∧ ∀ d, d ∈ data ↔
        ∃ chrom start end_ k,
          (chrom, start, end_) ∈ regions ∧ 0 ≤ k ∧ start + k * gap < end_
          ∧ d = (chrom, start + k * gap, (file_index, start, end_)).
Proof.
  intros Hgap. destruct (get_regions_from_bed_total file_) as [regions Hreg].
  destruct (mapM_get_data_for_region file_index gap regions Hgap)
    as (data & Hdata & Hin).
  exists regions, (concat data). split; [done|]. split; [|done].
  unfold generate_positions_from_regions. rewrite Hreg. simpl.
  by rewrite Hdata.
Qed.



Lemma forallb_fmap {A B} (f : B → bool) (g : A → B) (l : list A) :
  forallb f (g <$> l) = forallb (λ x, f (g x)) l.
Proof. induction l as [|x l IH]; [done|]. csimpl. by rewrite IH. Qed.

(** The cell a datum becomes in the store. *)
Lemma array_write_rows (A : list cell) (rows : list datum) :
  array_write A (rows.*1.*1) (rows.*1.*2) (rows.*2)
  = if forallb (λ d : datum, in_domain d.1.1 d.1.2) rows
    then Ok (A ++ ((λ d : datum, Cell d.1.1 d.1.2 (to_result d.2)) <$> rows))
    else Raise TileDBError.
Proof.
  unfold array_write. rewrite !length_fmap.
  case_decide as Hlen; [|exfalso; apply Hlen; split; reflexivity].
  rewrite zip_fst_snd, forallb_fmap, zip_with_fst_snd. unfold datum in *.
  destruct (forallb _ rows); [|done].
  do 2 f_equal. apply list_fmap_ext. by intros i [[c p] d] _.
Qed.

(** Every outcome of [write_data_for_file]. *)
Lemma write_data_for_file_cases (database : string) (file_index : Z)
    (file_ : list feature) (w : world) :
  ∃ data : list datum,
    generate_positions_from_regions file_index file_ GAP = Ok data
    ∧ write_data_for_file database file_index file_ w
      = match data, arrays w !! database with
        | [], _ => (Raise ValueError, w)
        | _, None => (Raise TileDBError, w)
        | _, Some A =>
            if forallb (λ d : datum, in_domain d.1.1 d.1.2) data
            then (Ok (),
                  World (the_registry w) (json_files w)
                    (<[database :=
                         A ++ ((λ d : datum, Cell d.1.1 d.1.2 (to_result d.2))
                                 <$> data)]> (arrays w))
                    (remote_beds w) (local_beds w))
            else (Raise TileDBError, w)
        end.
Proof.
  destruct (generate_positions_from_regions_spec file_index file_ GAP ltac:(done))
    as (regions & data & _ & Hgen & _).
  exists data. split; [done|].
  unfold write_data_for_file, mbind, M_bind, lift. rewrite Hgen.
  destruct data as [|d data]; [done|].
  cbn [unzip3]. unfold array_setitem, mbind, M_bind, open_array, lift, put_array.
  destruct (arrays w !! database) as [A|]; [|done].
  rewrite array_write_rows.
  by destruct (forallb _ (d :: data)).
Qed.


(** ** Queries *)









(** ** From ingestion to query *)



(** ** Persistence of the registry *)

Lemma map_file_names_differ (database : string) :
  database +:+ "_a_to_i.json" ≠ database +:+ "_i_to_a.json".
Proof. intros Heq. apply String.app_inj in Heq. discriminate Heq. Qed.

(** X10: saving and loading round-trip. [load_maps] after [save_maps] under
    the same name, in any registry instance, installs exactly the two maps
    that were saved; the counter of the loading instance stays what it was
    (it is neither saved nor restored), so in the saving instance itself
    the pair is a no-op; and saving touches no file but its two documents. *)
Theorem save_then_load_restores_maps (database : string) (saved reg : registry)
    (fs : gmap string json_doc) :
  load_maps database (save_maps database saved fs) reg
  = (Ok (), Registry (current_index reg) (accession_to_index saved)
                     (index_to_accession saved))
  ∧ load_maps database (save_maps database saved fs) saved = (Ok (), saved)
  ∧ ∀ name, name ≠ database +:+ "_a_to_i.json" →
            name ≠ database +:+ "_i_to_a.json" →
            save_maps database saved fs !! name = fs !! name.
Proof.
  pose proof (map_file_names_differ database) as Hne.
  assert (∀ reg0, load_maps database (save_maps database saved fs) reg0
          = (Ok (), Registry (current_index reg0) (accession_to_index saved)
                             (index_to_accession saved))) as Hload.
  { intros reg0.
    unfold load_maps, load_forward_map, load_reverse_map, save_maps,
      save_map_to_json_file.
    rewrite lookup_insert_ne, lookup_insert_eq by done.
    by rewrite lookup_insert_eq. }
  split; [apply Hload|]. split; [rewrite Hload; by destruct saved|].
  intros name H1 H2. unfold save_maps, save_map_to_json_file.
  by rewrite !lookup_insert_ne.
Qed.


(** ** The order in which indices are handed out *)

Lemma pd_unique_go_ext {A} `{EqDecision A} (seen1 seen2 l : list A) :
  (∀ x, x ∈ seen1 ↔ x ∈ seen2) →
  pd_unique_go seen1 l = pd_unique_go seen2 l.
Proof.
  revert seen1 seen2. induction l as [|x l IH]; intros seen1 seen2 Hext; [done|].
  simpl. destruct (decide (x ∈ seen1)) as [H1|H1];
    destruct (decide (x ∈ seen2)) as [H2|H2];
    try (exfalso; apply Hext in H1 || apply Hext in H2; done).
  - by apply IH.
  - f_equal. apply IH. intros y. rewrite !elem_of_cons, Hext. done.
Qed.

Lemma registered_in_order_known base seen reg a :
  registered_in_order base seen reg → a ∈ seen → (find_index a reg).2 = reg.
Proof.
  intros (_ & _ & Hfwd & _) (n & Hn)%list_elem_of_lookup.
  assert (accession_to_index reg !! a = Some (base + Z.of_nat n)) as Ha
    by (apply Hfwd; eauto).
  by rewrite (find_index_known _ _ _ Ha).
Qed.

Lemma lookup_snoc_Some {A} (l : list A) (x y : A) (n : nat) :
  (l ++ [x]) !! n = Some y ↔ l !! n = Some y ∨ (n = length l ∧ y = x).
Proof.
  destruct (decide (n < length l)%nat) as [Hlt|Hge].
  - rewrite lookup_app_l by done. split; [by left|].
    intros [?|[-> _]]; [done|lia].
  - rewrite lookup_app_r by lia. rewrite (lookup_ge_None_2 l n) by lia.
    destruct (n - length l)%nat as [|m] eqn:Hm; simpl.
    + split.
      * intros [= ->]. right. split; [lia|done].
      * intros [[=]|[_ ->]]. done.
    + split; [done|]. intros [[=]|[-> _]]. lia.
Qed.

Lemma registered_in_order_new base seen reg a :
  registered_in_order base seen reg → a ∉ seen →
  registered_in_order base (seen ++ [a]) (find_index a reg).2.
Proof.
  intros (Hc & Hnd & Hfwd & Hrev) Hnew.
  assert (accession_to_index reg !! a = None) as Ha.
  { destruct (accession_to_index reg !! a) as [i|] eqn:Hi; [|done].
    apply Hfwd in Hi as (n & Hn & _). exfalso. apply Hnew.
    apply list_elem_of_lookup. eauto. }
  rewrite (find_index_new _ _ Ha). unfold registered_in_order. simpl.
  split; [rewrite length_app; simpl; lia|]. split.
  { apply NoDup_app. split; [done|]. split; [|apply NoDup_singleton].
    intros x Hx ->%list_elem_of_singleton. done. }
  split.
  - intros b i. rewrite lookup_insert_Some. setoid_rewrite lookup_snoc_Some.
    rewrite Hfwd. split.
    + intros [[<- <-]|[Hne (n & Hn & ->)]].
      * exists (length seen). split; [by right|lia].
      * exists n. split; [by left|done].
    + intros (n & [Hn|[-> ->]] & ->).
      * right. split; [|eauto]. intros <-. apply Hnew.
        apply list_elem_of_lookup. eauto.
      * left. split; [done|lia].
  - intros i b. rewrite lookup_insert_Some. setoid_rewrite lookup_snoc_Some.
    rewrite Hrev. split.
    + intros [[<- <-]|[Hne (n & Hn & ->)]].
      * exists (length seen). split; [by right|lia].
      * exists n. split; [by left|done].
    + intros (n & [Hn|[-> ->]] & ->).
      * right. split; [|eauto]. apply lookup_lt_Some in Hn. lia.
      * left. split; [lia|done].
Qed.

Lemma run_find_index_in_order base (accessions seen : list string)
    (reg : registry) (fs : gmap string json_doc) :
  registered_in_order base seen reg →
  registered_in_order base (seen ++ pd_unique_go seen accessions)
    (run_ops (FindIndex <$> accessions) (reg, fs)).1.
Proof.
  revert seen reg. induction accessions as [|a l IH]; intros seen reg Hreg.
  { simpl. by rewrite app_nil_r. }
  change (run_ops (FindIndex <$> a :: l) (reg, fs))
    with (run_ops (FindIndex <$> l) ((find_index a reg).2, fs)).
  simpl pd_unique_go. case_decide as Ha.
  - rewrite (registered_in_order_known _ _ _ _ Hreg Ha). by apply IH.
  - pose proof (registered_in_order_new _ _ _ _ Hreg Ha) as Hreg'.
    apply IH with (seen := seen ++ [a]) in Hreg'.
    rewrite <- app_assoc in Hreg'. simpl in Hreg'.
    rewrite (pd_unique_go_ext (a :: seen) (seen ++ [a])); [done|].
    intros x. rewrite elem_of_cons, elem_of_app, list_elem_of_singleton. tauto.
Qed.

(** X12: indices are handed out in order of first appearance. After
    [find_index] has been called on a list of accessions in a fresh
    registry with base [FILE_INDEX_START], the n-th distinct accession
    (counting from 0) holds index FILE_INDEX_START + n in both maps, the
    counter stands at FILE_INDEX_START plus the number of distinct
    accessions, and no other accession is registered. *)
Theorem indices_follow_first_appearance (accessions : list string)
    (FILE_INDEX_START : Z) (fs : gmap string json_doc) :
  let reg := (run_ops (FindIndex <$> accessions)
                (get_find_index_and_find_file_maps FILE_INDEX_START, fs)).1 in
  current_index reg
  = FILE_INDEX_START + Z.of_nat (length (pd_unique accessions))
  ∧ (∀ (n : nat) a, pd_unique accessions !! n = Some a →
       accession_to_index reg !! a = Some (FILE_INDEX_START + Z.of_nat n)
       ∧ find_file (FILE_INDEX_START + Z.of_nat n) reg = Some a)
  ∧ (∀ a, a ∉ accessions → accession_to_index reg !! a = None).
Proof.
  assert (registered_in_order FILE_INDEX_START []
            (get_find_index_and_find_file_maps FILE_INDEX_START)) as Hfresh.
  { unfold registered_in_order. simpl. split; [lia|]. split; [constructor|].
    split; intros ??; rewrite lookup_empty; split; try done;
      by intros (n & Hn & _). }
  destruct (run_find_index_in_order FILE_INDEX_START accessions [] _ fs Hfresh)
    as (Hc & _ & Hfwd & Hrev).
  simpl in *. fold (pd_unique accessions) in *.
  split; [done|]. split.
  - intros n a Hn. split; [apply Hfwd|apply Hrev]; eauto.
  - intros a Hnot. destruct (accession_to_index _ !! a) as [i|] eqn:Hi; [|done].
    apply Hfwd in Hi as (n & Hn & _). exfalso. apply Hnot.
    apply elem_of_pd_unique, list_elem_of_lookup. eauto.
Qed.

(** ** The ingestion loop *)

Lemma split_go_last (sep : string) (skip : nat) (cur s : string) :
  ∃ name, last (Py.split_go sep skip cur s) = Some name.
Proof.
  revert skip cur. induction s as [|c s IH]; intros skip cur; cbn [Py.split_go].
  - by eexists.
  - destruct skip as [|k]; [|apply IH].
    destruct (String.prefix sep (String c s)); [|apply IH].
    destruct (IH (String.length sep - 1)%nat EmptyString) as [name Hname].
    exists name. rewrite last_cons. by rewrite Hname.
Qed.

Lemma url_file_name (url : string) :
  ∃ parts name,
    Py.split url "/" = Ok parts ∧ Py.getitem_last parts = Ok name.
Proof.
  destruct (split_go_last "/" 0 EmptyString url) as [name Hname].
  exists (Py.split_go "/" 0 EmptyString url), name.
  split; [done|]. unfold Py.getitem_last. by rewrite Hname.
Qed.

Lemma find_index_registers (a : string) (reg : registry) :
  ∃ i reg',
    find_index a reg = (Ok i, reg') ∧ accession_to_index reg' !! a = Some i.
Proof.
  destruct (accession_to_index reg !! a) as [i|] eqn:Ha.
  - exists i, reg. by rewrite (find_index_known _ _ _ Ha).
  - eexists _, _. split; [by apply find_index_new|]. simpl.
    apply lookup_insert_eq.
Qed.

(** The loop of [load] runs its body on the first url and goes on with the
    rest only if that raised nothing. *)
Lemma load_loop_cons (database url : string) (urls : list string) (w : world) :
  load_loop database (url :: urls) w
  = match load_body database url w with
    | (Ok _, w') => load_loop database urls w'
    | (Raise e, w') => (Raise e, w')
    end.
Proof.
  cbn [load_loop]. unfold load_body, mbind, M_bind.
  destruct (get_remote_bed_file url w) as [[file_|e] w1]; [|done].
  destruct (lift (Py.split url "/") w1) as [[parts|e] w2]; [|done].
  destruct (lift (Py.getitem_last parts) w2) as [[name|e] w3]; [|done].
  destruct (with_registry (find_index (Py.replace name ".bed.gz" EmptyString)) w3)
    as [[file_index|e] w4]; [|done].
  by destruct (write_data_for_file database file_index file_ w4) as [[[]|e] w5].
Qed.

(** What one turn of the loop does. *)
Lemma load_body_run (database url : string) (w : world) (bed : list feature) :
  remote_beds w !! url = Some bed →
  ∃ name index reg',
    (Py.split url "/" ≫= Py.getitem_last) = Ok name
    ∧ find_index (Py.replace name ".bed.gz" EmptyString) (the_registry w)
      = (Ok index, reg')
    ∧ accession_to_index reg' !! Py.replace name ".bed.gz" EmptyString = Some index
    ∧ load_body database url w
      = write_data_for_file database index bed
          (World reg' (json_files w) (arrays w) (remote_beds w) (local_beds w)).
Proof.
  intros Hbed. destruct (url_file_name url) as (parts & name & Hparts & Hname).
  destruct (find_index_registers (Py.replace name ".bed.gz" EmptyString)
              (the_registry w)) as (index & reg' & Hfind & Hreg).
  exists name, index, reg'. split; [by rewrite Hparts|]. split; [done|].
  split; [done|].
  unfold load_body, mbind, M_bind, get_remote_bed_file, lift, with_registry.
  rewrite Hbed, Hparts, Hname, Hfind.
  by destruct (write_data_for_file _ _ _ _) as [[[]|e] w'].
Qed.

Lemma write_data_for_file_keeps_array (database : string) (file_index : Z)
    (file_ : list feature) (w : world) :
  is_Some (arrays w !! database) →
  is_Some (arrays (write_data_for_file database file_index file_ w).2 !! database)
  ∧ remote_beds (write_data_for_file database file_index file_ w).2
    = remote_beds w.
Proof.
  intros [A Harr].
  destruct (write_data_for_file_cases database file_index file_ w)
    as (data & _ & ->).
  destruct data as [|d data]; cbn [snd]; [by rewrite Harr|].
  rewrite Harr.
  destruct (forallb _ (d :: data)); cbn [snd arrays remote_beds];
    [|by rewrite Harr].
  by rewrite lookup_insert_eq.
Qed.

Lemma load_body_keeps_array (database url : string) (w : world) :
  is_Some (arrays w !! database) →
  is_Some (arrays (load_body database url w).2 !! database).
Proof.
  intros Harr. destruct (remote_beds w !! url) as [bed|] eqn:Hbed.
  - destruct (load_body_run database url w bed Hbed)
      as (name & index & reg' & _ & _ & _ & ->).
    by apply write_data_for_file_keeps_array.
  - unfold load_body, mbind, M_bind, get_remote_bed_file. by rewrite Hbed.
Qed.

Lemma load_loop_keeps_array (database : string) (urls : list string) (w : world) :
  is_Some (arrays w !! database) →
  is_Some (arrays (load_loop database urls w).2 !! database).
Proof.
  revert w. induction urls as [|url urls IH]; intros w Harr; [done|].
  rewrite load_loop_cons.
  pose proof (load_body_keeps_array database url w Harr) as Hbody.
  destruct (load_body database url w) as [[[]|e] w']; [by apply IH|done].
Qed.

Lemma load_loop_app (database : string) (urls1 urls2 : list string) (w : world) :
  load_loop database (urls1 ++ urls2) w
  = match load_loop database urls1 w with
    | (Ok _, w') => load_loop database urls2 w'
    | (Raise e, w') => (Raise e, w')
    end.
Proof.
  revert w. induction urls1 as [|url urls1 IH]; intros w; [done|].
  rewrite <- app_comm_cons, !load_loop_cons.
  destruct (load_body database url w) as [[[]|e] w']; [apply IH|done].
Qed.

(** X13: [load] on one url. On a missing array it raises TileDBError and on
    a url that cannot be fetched it raises ConnectionError, in both cases
    changing nothing. Otherwise it registers the accession derived from the
    url (the text after the last "/", with every ".bed.gz" removed) and
    then is exactly [write_data_for_file] under that accession's index: the
    accession stays registered whether the write succeeds or raises. *)
Theorem load_one_url (database url : string) (w : world) :
  match arrays w !! database, remote_beds w !! url with
  | None, _ => load database [url] w = (Raise TileDBError, w)
  | Some _, None => load database [url] w = (Raise ConnectionError, w)
  | Some _, Some bed =>
      ∃ name index reg',
        (Py.split url "/" ≫= Py.getitem_last) = Ok name
        ∧ find_index (Py.replace name ".bed.gz" EmptyString) (the_registry w)
          = (Ok index, reg')
        ∧ accession_to_index reg' !! Py.replace name ".bed.gz" EmptyString
          = Some index
        ∧ load database [url] w
          = write_data_for_file database index bed
              (World reg' (json_files w) (arrays w) (remote_beds w) (local_beds w))
        ∧ the_registry (load database [url] w).2 = reg'
  end.
Proof.
  unfold load, mbind, M_bind, open_array.
  destruct (arrays w !! database) as [A|] eqn:Harr.
  2: { by destruct (remote_beds w !! url). }
  rewrite load_loop_cons.
  destruct (remote_beds w !! url) as [bed|] eqn:Hbed.
  - destruct (load_body_run database url w bed Hbed)
      as (name & index & reg' & Hname & Hfind & Hreg & Hbody).
    exists name, index, reg'. split; [done|]. split; [done|]. split; [done|].
    rewrite Hbody.
    destruct (write_data_for_file_cases database index bed
                (World reg' (json_files w) (arrays w) (remote_beds w) (local_beds w)))
      as (data & _ & Hrun).
    rewrite Hrun. cbn [arrays]. rewrite Harr.
    destruct data as [|d data]; [done|].
    by destruct (forallb _ (d :: data)).
  - unfold load_body, mbind, M_bind, get_remote_bed_file. by rewrite Hbed.
Qed.

(** X14: [load] goes through its urls in order and stops at the first one
    that raises, keeping what the earlier ones wrote and registered:
    loading a list in two parts, the second only if the first raised
    nothing, is the same as loading it in one go. *)
Theorem load_app (database : string) (urls1 urls2 : list string) (w : world) :
  load database (urls1 ++ urls2) w
  = match load database urls1 w with
    | (Ok _, w') => load database urls2 w'
    | (Raise e, w') => (Raise e, w')
    end.
Proof.
  unfold load, mbind, M_bind, open_array.
  destruct (arrays w !! database) as [A|] eqn:Harr; [|done].
  rewrite load_loop_app.
  pose proof (load_loop_keeps_array database urls1 w ltac:(by rewrite Harr))
    as Hkeep.
  destruct (load_loop database urls1 w) as [[[]|e] w']; [|done].
  simpl in Hkeep. by destruct Hkeep as [A' ->].
Qed.
